(** * Verification of [lambda/app.py]: quota limiter and text-line consolidation

    Shallow embedding of the algorithmic core of the image-analysis Lambda:
    - [_iou], [_norm_text], [_group_words_into_lines] and the
      de-duplication loop of [_detect_text_lines_by_s3];
    - [enforce_quota], over a model of the DynamoDB table it updates.

    Number model.  Python [float] values are embedded as exact rationals
    ([Q]); [==], [<], [>=] on floats become [Qeq], [Qlt], [Qle].  The literals
    [1e-9], [0.04], [0.5] are the rationals they denote.  Rounding error, NaN
    and infinities are outside the model.  Python [int] is [Z]. *)

From Stdlib Require Import ZArith QArith Qminmax Lqa Lia Bool.
From Stdlib Require Import String Ascii List Permutation Sorted.
From stdpp Require Import gmap strings pretty.

Import ListNotations.
Local Open Scope Q_scope.

(** ** Numbers *)

Module Num.

(** Python's [a < b] and [a >= b] on numbers, as booleans. *)
Definition ltb (a b : Q) : bool := negb (Qle_bool b a).
Definition geb (a b : Q) : bool := Qle_bool b a.

(** [max(a, b)] keeps [a] unless [b > a]; [min(a, b)] keeps [a] unless
    [b < a]. *)
Definition max (a b : Q) : Q := if ltb a b then b else a.
Definition min (a b : Q) : Q := if ltb b a then b else a.

(** [int(x)]: truncation towards zero. *)
Definition int (x : Q) : Z := Z.quot (Qnum x) (Zpos (Qden x)).

(** [math.floor], the rounding the specification names for row buckets. *)
Definition floor (x : Q) : Z := Z.div (Qnum x) (Zpos (Qden x)).

(** [round(x)] with one argument: nearest integer, ties to even. *)
Definition round (x : Q) : Z :=
  let n := Qnum x in
  let d := Zpos (Qden x) in
  let f := Z.div n d in
  let r := Z.modulo n d in
  match Z.compare (2 * r) d with
  | Lt => f
  | Gt => (f + 1)%Z
  | Eq => if Z.even f then f else (f + 1)%Z
  end.

Definition eps : Q := 1 # 1000000000.
Definition band : Q := 4 # 100.
Definition half : Q := 1 # 2.

End Num.

(** ** Bounding boxes and intersection over union *)

Record BoundingBox : Type := mkBox {
  Left : Q;
  Top : Q;
  Width : Q;
  Height : Q
}.

(** Area of the overlap rectangle, [inter] in the source. *)
Definition iou_inter (bb1 bb2 : BoundingBox) : Q :=
  let x1 := Left bb1 in let y1 := Top bb1 in
  let x2 := x1 + Width bb1 in let y2 := y1 + Height bb1 in
  let a1 := Left bb2 in let b1 := Top bb2 in
  let a2 := a1 + Width bb2 in let b2 := b1 + Height bb2 in
  let inter_x1 := Num.max x1 a1 in let inter_y1 := Num.max y1 b1 in
  let inter_x2 := Num.min x2 a2 in let inter_y2 := Num.min y2 b2 in
  let iw := Num.max 0 (inter_x2 - inter_x1) in
  let ih := Num.max 0 (inter_y2 - inter_y1) in
  iw * ih.

(** The divisor of the last line of [_iou]:
    [area1 + area2 - inter + 1e-9]. *)
Definition iou_denom (bb1 bb2 : BoundingBox) : Q :=
  let x1 := Left bb1 in let y1 := Top bb1 in
  let x2 := x1 + Width bb1 in let y2 := y1 + Height bb1 in
  let a1 := Left bb2 in let b1 := Top bb2 in
  let a2 := a1 + Width bb2 in let b2 := b1 + Height bb2 in
  let area1 := (x2 - x1) * (y2 - y1) in
  let area2 := (a2 - a1) * (b2 - b1) in
  area1 + area2 - iou_inter bb1 bb2 + Num.eps.

(** [_iou(bb1, bb2)].  The early [return 0.0] is the first branch; the
    division is only reached in the second. *)
Definition _iou (bb1 bb2 : BoundingBox) : Q :=
  let inter := iou_inter bb1 bb2 in
  if Qeq_bool inter 0 then 0
  else inter / iou_denom bb1 bb2.

Definition box_area (bb : BoundingBox) : Q := Width bb * Height bb.

(** Length of the overlap of the intervals [[lo1, lo1+len1]] and
    [[lo2, lo2+len2]]: the value of [iw] (and of [ih]) in [_iou]. *)
Definition overlap (lo1 len1 lo2 len2 : Q) : Q :=
  Num.max 0 (Num.min (lo1 + len1) (lo2 + len2) - Num.max lo1 lo2).


Definition unit_box : BoundingBox := mkBox 0 0 1 1.

(** ** Text normalisation

    Texts are ASCII strings.  [\s] matches the characters for which
    [str.isspace] holds: codes 9-13 and 28-32. *)

Definition is_space (c : ascii) : bool :=
  let n := N_of_ascii c in
  ((9 <=? n) && (n <=? 13) || (28 <=? n) && (n <=? 32))%N.

Definition lower_char (c : ascii) : ascii :=
  let n := N_of_ascii c in
  if ((65 <=? n) && (n <=? 90))%N then ascii_of_N (n + 32) else c.

(** [re.sub(r"\s+", " ", s)]: every maximal run of whitespace becomes one
    space.  [in_run] records that the previous character was whitespace. *)
Fixpoint sub_ws (in_run : bool) (s : list ascii) : list ascii :=
  match s with
  | [] => []
  | c :: s' =>
      if is_space c
      then (if in_run then sub_ws true s' else " "%char :: sub_ws true s')
      else c :: sub_ws false s'
  end.

Fixpoint lstrip (s : list ascii) : list ascii :=
  match s with
  | [] => []
  | c :: s' => if is_space c then lstrip s' else s
  end.

Definition strip (s : list ascii) : list ascii :=
  rev (lstrip (rev (lstrip s))).

(** [_norm_text(s)]: [re.sub(r"\s+", " ", s).strip().lower()]. *)
Definition _norm_text (s : string) : string :=
  string_of_list_ascii
    (map lower_char (strip (sub_ws false (list_ascii_of_string s)))).

(** ** Detections

    A text detection as returned by the vision service: the dictionary keys
    [Type], [DetectedText], [Confidence] and [Geometry.BoundingBox].  [Type_]
    is [None] for the dictionaries built without that key. *)

Record Detection : Type := mkDetection {
  Type_ : option string;
  DetectedText : string;
  Confidence : Q;
  Geometry : BoundingBox
}.

(** An entry of [uniq], the list [_detect_text_lines_by_s3] returns: keys
    [DetectedText], [Confidence], [Box]. *)
Record UniqLine : Type := mkUniq {
  uText : string;
  uConfidence : Q;
  Box : BoundingBox
}.

(** ** Sorting

    [list.sort(key=...)] and [sorted(..., key=...)] are stable: elements are
    ordered by [<] on their keys and elements with equivalent keys keep their
    relative order.  For a total preorder that output is unique; it is
    computed here by a stable insertion sort. *)

Section StableSort.
Context {A K : Type} (lt : K -> K -> bool) (key : A -> K).

Fixpoint insert_by (x : A) (l : list A) : list A :=
  match l with
  | [] => [x]
  | y :: l' => if lt (key y) (key x) then y :: insert_by x l' else x :: l
  end.

Definition sort_by (l : list A) : list A := fold_right insert_by [] l.

End StableSort.

(** ** Grouping words into lines *)

Definition center_y (bb : BoundingBox) : Q := Top bb + Height bb / 2.

(** Sort key of the first [words.sort]:
    [(round(center_y(bb)*100), bb["Left"])], compared as tuples. *)
Definition word_key (w : Detection) : Z * Q :=
  (Num.round (center_y (Geometry w) * 100), Left (Geometry w)).

Definition key_lt (k1 k2 : Z * Q) : bool :=
  if Z.eqb (fst k1) (fst k2) then Num.ltb (snd k1) (snd k2)
  else Z.ltb (fst k1) (fst k2).

(** [int(center_y(bb) / band)] *)
Definition row_of (w : Detection) : Z :=
  Num.int (center_y (Geometry w) / Num.band).

(** The dictionary [rows], in insertion order. *)
Definition Rows : Type := list (Z * list Detection).

(** [rows.setdefault(r, []).append(w)] *)
Fixpoint setdefault_append (r : Z) (w : Detection) (rows : Rows) : Rows :=
  match rows with
  | [] => [(r, [w])]
  | (r', ws) :: rest =>
      if Z.eqb r' r then (r', ws ++ [w]) :: rest
      else (r', ws) :: setdefault_append r w rest
  end.

Definition fill_rows (words : list Detection) : Rows :=
  fold_left (fun rows w => setdefault_append (row_of w) w rows) words [].

(** [min(l)] and [max(l)]; [None] is the [ValueError] on an empty list. *)
Definition py_min (l : list Q) : option Q :=
  match l with
  | [] => None
  | x :: xs => Some (fold_left Num.min xs x)
  end.

Definition py_max (l : list Q) : option Q :=
  match l with
  | [] => None
  | x :: xs => Some (fold_left Num.max xs x)
  end.

(** [sum(l)] starts from [0] and adds left to right. *)
Definition py_sum (l : list Q) : Q := fold_left Qplus l 0.

Definition sort_left (ws : list Detection) : list Detection :=
  sort_by Num.ltb (fun w => Left (Geometry w)) ws.

(** Body of the loop over the sorted rows, after [ws.sort]: the line built
    from the words [ws] of one row. *)
Definition line_of_row (ws : list Detection) : option Detection :=
  let text := String.concat " " (map DetectedText ws) in
  let conf := py_sum (map Confidence ws)
              / inject_Z (Z.max 1 (Z.of_nat (length ws))) in
  let lefts := map (fun w => Left (Geometry w)) ws in
  let tops := map (fun w => Top (Geometry w)) ws in
  let rights := map (fun lw => fst lw + Width (Geometry (snd lw)))
                    (combine lefts ws) in
  let bots := map (fun tw => fst tw + Height (Geometry (snd tw)))
                  (combine tops ws) in
  match py_min lefts, py_min tops, py_max rights, py_max bots with
  | Some min_l, Some min_t, Some max_r, Some max_b =>
      Some (mkDetection (Some "LINE"%string) text conf
              (mkBox min_l min_t (max_r - min_l) (max_b - min_t)))
  | _, _, _, _ => None
  end.

(** Sequencing of a fallible loop body over a list. *)
Fixpoint traverse {A B : Type} (f : A -> option B) (l : list A)
  : option (list B) :=
  match l with
  | [] => Some []
  | x :: l' =>
      match f x with
      | None => None
      | Some y =>
          match traverse f l' with
          | None => None
          | Some ys => Some (y :: ys)
          end
      end
  end.

(** [_group_words_into_lines(words)].  The argument list is sorted in
    place; the first component is the content of that list object when the
    call ends, the second the returned lines ([None]: an exception). *)
Definition _group_words_into_lines (words : list Detection)
  : list Detection * option (list Detection) :=
  match words with
  | [] => (words, Some [])
  | _ :: _ =>
      let words' := sort_by key_lt word_key words in
      let rows := fill_rows words' in
      let sorted_rows := sort_by Z.ltb fst rows in
      (words',
       traverse (fun kv : Z * list Detection => line_of_row (sort_left (snd kv)))
                sorted_rows)
  end.

(** *** Vocabulary for the properties of grouping *)


(** The row bucket in the specification's words:
    [floor(vertical_center / BAND)]. *)
Definition bucket (w : Detection) : Z :=
  Num.floor (center_y (Geometry w) / Num.band).

(** The words of row [r], in the order of [words]. *)
Definition row_words (r : Z) (words : list Detection) : list Detection :=
  List.filter (fun w => Z.eqb (row_of w) r) words.

(** What the loop filling [rows] maintains, with [seen] the words already
    visited: keys are distinct, the row of key [r] holds the visited words
    of row [r] in visiting order and is not empty, and the rows together
    hold the visited words. *)
Definition rows_inv (rows : Rows) (seen : list Detection) : Prop :=
  List.NoDup (map fst rows)
  /\ Forall (fun kv => snd kv = row_words (fst kv) seen /\ snd kv <> []) rows
  /\ Permutation (concat (map snd rows)) seen.

(** The rows in the order the last loop visits them, each with its words
    as [ws.sort] leaves them. *)
Definition group_rows (words : list Detection) : Rows :=
  map (fun kv : Z * list Detection => (fst kv, sort_left (snd kv)))
      (sort_by Z.ltb fst (fill_rows (sort_by key_lt word_key words))).

(** The orders behind the three sorts: [a] may stand before [b]. *)
Definition key_le (a b : Detection) : Prop :=
  key_lt (word_key b) (word_key a) = false.

Definition left_le (a b : Detection) : Prop :=
  Left (Geometry a) <= Left (Geometry b).

(** [m] is the least (greatest) value of [l]. *)
Definition is_min (m : Q) (l : list Q) : Prop :=
  Exists (fun x => x == m) l /\ Forall (fun x => m <= x) l.

Definition is_max (m : Q) (l : list Q) : Prop :=
  Exists (fun x => x == m) l /\ Forall (fun x => x <= m) l.

Definition mean (l : list Q) : Q :=
  py_sum l / inject_Z (Z.of_nat (length l)).

Definition box_right (bb : BoundingBox) : Q := Left bb + Width bb.
Definition box_bottom (bb : BoundingBox) : Q := Top bb + Height bb.

(** The line the specification describes for the words [ws] of a bucket:
    texts joined by single spaces, mean confidence, enclosing box. *)
Definition describes (ws : list Detection) (line : Detection) : Prop :=
  DetectedText line = String.concat " " (map DetectedText ws)
  /\ Confidence line == mean (map Confidence ws)
  /\ is_min (Left (Geometry line)) (map (fun w => Left (Geometry w)) ws)
  /\ is_min (Top (Geometry line)) (map (fun w => Top (Geometry w)) ws)
  /\ is_max (box_right (Geometry line))
            (map (fun w => box_right (Geometry w)) ws)
  /\ is_max (box_bottom (Geometry line))
            (map (fun w => box_bottom (Geometry w)) ws).


(** The words of the specification's example. *)
Definition word (text : string) (conf left top : Q) : Detection :=
  mkDetection (Some "WORD"%string) text conf
    (mkBox left top (1 # 10) (5 # 100)).

(** ** Line selection and de-duplication *)

Definition has_type (t : string) (d : Detection) : bool :=
  match Type_ d with
  | Some t' => String.eqb t' t
  | None => false
  end.

(** [[d for d in dets if d.get("Type") == t
        and float(d.get("Confidence",0)) >= min_conf]] *)
Definition select (t : string) (dets : list Detection) (min_conf : Q)
  : list Detection :=
  List.filter (fun d => has_type t d && Num.geb (Confidence d) min_conf) dets.

(** The re-packing of grouped lines into [built]: the same text, confidence
    and box, without a [Type] key. *)
Definition built_of (lines : list Detection) : list Detection :=
  map (fun l => mkDetection None (DetectedText l) (Confidence l)
                  (mkBox (Left (Geometry l)) (Top (Geometry l))
                         (Width (Geometry l)) (Height (Geometry l))))
      lines.

(** The test of the inner loop:
    [_norm_text(u["DetectedText"]) == txtn and _iou(bb, u["Box"]) > 0.5]. *)
Definition is_dup (txtn : string) (bb : BoundingBox) (u : UniqLine) : bool :=
  String.eqb (_norm_text (uText u)) txtn && Num.ltb Num.half (_iou bb (Box u)).

(** One iteration of [for l in lines]; [existsb] is the inner loop with its
    [break]. *)
Definition uniq_step (uniq : list UniqLine) (l : Detection) : list UniqLine :=
  let txt := DetectedText l in
  let bb := Geometry l in
  let txtn := _norm_text txt in
  if existsb (is_dup txtn bb) uniq then uniq
  else uniq ++ [mkUniq txt (Confidence l)
                  (mkBox (Left bb) (Top bb) (Width bb) (Height bb))].

(** The entry appended for a kept line. *)
Definition uniq_entry (l : Detection) : UniqLine :=
  mkUniq (DetectedText l) (Confidence l)
    (mkBox (Left (Geometry l)) (Top (Geometry l))
           (Width (Geometry l)) (Height (Geometry l))).

Definition uniq_loop (lines : list Detection) : list UniqLine :=
  fold_left uniq_step lines [].

(** [_detect_text_lines_by_s3(bucket, key, min_conf)], with [dets] the
    [TextDetections] the vision service returns for the stored object. *)
Definition _detect_text_lines_by_s3 (dets : list Detection) (min_conf : Q)
  : option (list UniqLine) :=
  match select "LINE" dets min_conf with
  | [] =>
      let words := select "WORD" dets min_conf in
      match snd (_group_words_into_lines words) with
      | None => None
      | Some lines => Some (uniq_loop (built_of lines))
      end
  | lines => Some (uniq_loop lines)
  end.

(** The specification's [deduplicate(lines, min_confidence)] is that
    function on line-level input; its result has the shape of its input. *)
Definition as_line (u : UniqLine) : Detection :=
  mkDetection (Some "LINE"%string) (uText u) (uConfidence u) (Box u).

Definition deduplicate (lines : list UniqLine) (min_confidence : Q)
  : option (list UniqLine) :=
  _detect_text_lines_by_s3 (map as_line lines) min_confidence.

(** The duplicate predicate between two lines, candidate first. *)
Definition duplicate (a b : UniqLine) : bool :=
  is_dup (_norm_text (uText a)) (Box a) b.

(** The algorithm of the specification (section 4.3), in its own words:
    drop the lines below [min_confidence], then scan the candidates in input
    order with an accumulator of accepted lines, discarding a candidate when
    some accepted line is its duplicate and appending it otherwise. *)
Definition confident (min_confidence : Q) (lines : list UniqLine)
  : list UniqLine :=
  List.filter (fun u => Num.geb (uConfidence u) min_confidence) lines.

Definition scan_step (accepted : list UniqLine) (c : UniqLine)
  : list UniqLine :=
  if existsb (duplicate c) accepted then accepted else accepted ++ [c].

Definition scan (candidates : list UniqLine) : list UniqLine :=
  fold_left scan_step candidates [].

(** Lists in which no element is a duplicate of an earlier one. *)
Inductive scanned : list UniqLine -> Prop :=
| scanned_nil : scanned []
| scanned_snoc (U : list UniqLine) (c : UniqLine) :
    scanned U -> existsb (duplicate c) U = false -> scanned (U ++ [c]).


(** ** Quota table

    The table holds one item per key [(pk, sk)]; an item has the numeric
    attributes [cnt] and [expires], either of which may be absent. *)

Record Item : Type := mkItem {
  cnt : option Z;
  expires : option Z
}.

Abbreviation Table := (gmap (string * string) Item).

(** [ConditionExpression]: [attribute_not_exists(cnt) OR cnt < :lim] *)
Definition condition_holds (old : option Item) (lim : Z) : bool :=
  match old ≫= cnt with
  | None => true
  | Some c => Z.ltb c lim
  end.

(** [UpdateExpression]:
    [SET cnt = if_not_exists(cnt, :z) + :one, expires = :ttl] *)
Definition apply_update (old : option Item) (z one ttl : Z) : Item :=
  mkItem (Some (default z (old ≫= cnt) + one)%Z) (Some ttl).

Inductive UpdateResult : Type :=
| Attributes (all_new : Item)
| ClientError (code : string).

(** The store's conditional update, one atomic step: the condition is
    evaluated on the stored item and the update applied only if it holds;
    [ReturnValues="ALL_NEW"]. *)
Definition update_item (tbl : Table) (pk sk : string) (z one lim ttl : Z)
  : UpdateResult * Table :=
  let old := tbl !! (pk, sk) in
  if condition_holds old lim
  then let new := apply_update old z one ttl in
       (Attributes new, <[(pk, sk) := new]> tbl)
  else (ClientError "ConditionalCheckFailedException", tbl).

(** ** Quota enforcement *)

Record Config : Type := mkConfig {
  FEATURE_QUOTA_ENABLED : bool;
  QUOTA_TABLE : option string;
  QUOTA_LIMIT : Z
}.

(** The 429 response carried by the [RuntimeError]: status and the headers
    [x-ratelimit-limit], [x-ratelimit-remaining]. *)
Record Response : Type := mkResponse {
  statusCode : Z;
  ratelimit_limit : Z;
  ratelimit_remaining : Z
}.

Inductive Outcome : Type :=
| Returns (n : Z)
| RuntimeError (resp : Response)
| Reraised (code : string)
| KeyError.

(** [not QUOTA_TABLE]: unset or empty. *)
Definition no_table (t : option string) : bool :=
  match t with
  | None => true
  | Some name => String.eqb name ""
  end.

(** [enforce_quota(event)], with [user_id], [day] and [ttl] the values of
    [_client_id(event)], [_today_utc_str()] and
    [_next_midnight_epoch_utc()]. *)
Definition enforce_quota (cfg : Config) (user_id day : string) (ttl : Z)
    (tbl : Table) : Outcome * Table :=
  if negb (FEATURE_QUOTA_ENABLED cfg) || no_table (QUOTA_TABLE cfg)
  then (Returns 0, tbl)
  else
    let pk := ("user#" ++ user_id)%string in
    let sk := day in
    match update_item tbl pk sk 0 1 (QUOTA_LIMIT cfg) ttl with
    | (Attributes res, tbl') =>
        match cnt res with
        | Some n => (Returns n, tbl')
        | None => (KeyError, tbl')
        end
    | (ClientError code, tbl') =>
        if String.eqb code "ConditionalCheckFailedException"
        then (RuntimeError (mkResponse 429 (QUOTA_LIMIT cfg) 0), tbl')
        else (Reraised code, tbl')
    end.

(** The table key of a caller and day: [pk = f"user#{user_id}"], [sk = day]. *)
Definition quota_key (user_id day : string) : string * string :=
  (("user#" ++ user_id)%string, day).

(** The stored count of a key, a missing record or attribute counting as 0. *)
Definition stored_count (tbl : Table) (user_id day : string) : Z :=
  default 0%Z (tbl !! quota_key user_id day ≫= cnt).

Definition has_count (tbl : Table) (user_id day : string) : bool :=
  match tbl !! quota_key user_id day ≫= cnt with
  | Some _ => true
  | None => false
  end.

(** The gate at the head of [enforce_quota] is open. *)
Definition quota_active (cfg : Config) : bool :=
  FEATURE_QUOTA_ENABLED cfg && negb (no_table (QUOTA_TABLE cfg)).

(** The outcome named [QuotaExceeded] by the specification. *)
Definition exceeded (cfg : Config) : Outcome :=
  RuntimeError (mkResponse 429 (QUOTA_LIMIT cfg) 0).

(** An attempt names its caller, day and expiry; attempts reach the store
    one at a time, each as one atomic update. *)
Record Attempt : Type := mkAttempt {
  a_user : string;
  a_day : string;
  a_ttl : Z
}.

Fixpoint run (cfg : Config) (attempts : list Attempt) (tbl : Table)
  : list Outcome * Table :=
  match attempts with
  | [] => ([], tbl)
  | a :: rest =>
      let '(o, tbl') := enforce_quota cfg (a_user a) (a_day a) (a_ttl a) tbl in
      let '(os, tbl'') := run cfg rest tbl' in
      (o :: os, tbl'')
  end.

Definition is_success (o : Outcome) : bool :=
  match o with
  | Returns _ => true
  | _ => false
  end.

Definition is_quota_exceeded (o : Outcome) : bool :=
  match o with
  | RuntimeError resp => Z.eqb (statusCode resp) 429
  | _ => false
  end.

Definition on_key (user_id day : string) (a : Attempt) : bool :=
  String.eqb (a_user a) user_id && String.eqb (a_day a) day.

(** Outcomes of the attempts made on one key, in order. *)
Definition outcomes_on (user_id day : string) (attempts : list Attempt)
    (outcomes : list Outcome) : list Outcome :=
  map snd (List.filter (fun ao => on_key user_id day (fst ao))
                       (combine attempts outcomes)).

Definition attempts_on (user_id day : string) (attempts : list Attempt)
  : nat :=
  length (List.filter (on_key user_id day) attempts).

(** A saturated table for the examples: the count of ["u"] on ["d"] is 3. *)
Definition tbl_three : Table :=
  {[ quota_key "u" "d" := mkItem (Some 3%Z) (Some 5%Z) ]}.

(** The states of a key named by the specification. *)
Inductive KeyState : Type :=
| ABSENT
| COUNTING (count : Z)
| SATURATED
| OVERSHOT (count : Z).

Definition key_state (lim : Z) (tbl : Table) (user_id day : string)
  : KeyState :=
  match tbl !! quota_key user_id day ≫= cnt with
  | None => ABSENT
  | Some c =>
      if Z.ltb c lim then COUNTING c
      else if Z.eqb c lim then SATURATED
      else OVERSHOT c
  end.

(** * Request handling

    The rest of the module: identity of the caller, the expiry instant, the
    admin check and the HTTP routes.  Calls into libraries and services
    (JSON and base64 decoding, [os.path], [mimetypes], [uuid], S3,
    Rekognition) are parameters of the model; logging is left out. *)

(** ** Strings and truthiness *)

(** A value that may be missing is falsy when it is missing or empty. *)
Definition truthy (a : option string) : option string :=
  match a with
  | Some s => if String.eqb s "" then None else Some s
  | None => None
  end.

(** [a or b], with [b] a string. *)
Definition py_or (a : option string) (b : string) : string :=
  match truthy a with
  | Some s => s
  | None => b
  end.

Definition lower (s : string) : string :=
  string_of_list_ascii (map lower_char (list_ascii_of_string s)).

Definition upper_char (c : ascii) : ascii :=
  let n := N_of_ascii c in
  if ((97 <=? n) && (n <=? 122))%N then ascii_of_N (n - 32) else c.

Definition upper (s : string) : string :=
  string_of_list_ascii (map upper_char (list_ascii_of_string s)).

Definition strip_string (s : string) : string :=
  string_of_list_ascii (strip (list_ascii_of_string s)).

Fixpoint starts_with (p s : list ascii) : bool :=
  match p, s with
  | [], _ => true
  | _ :: _, [] => false
  | a :: p', b :: s' => Ascii.eqb a b && starts_with p' s'
  end.

(** [s.endswith(suffix)] *)
Definition endswith (s suffix : string) : bool :=
  starts_with (rev (list_ascii_of_string suffix)) (rev (list_ascii_of_string s)).

Fixpoint lstrip_char (c : ascii) (s : list ascii) : list ascii :=
  match s with
  | [] => []
  | a :: s' => if Ascii.eqb a c then lstrip_char c s' else s
  end.

(** [s.rstrip("/")] *)
Definition rstrip_slash (s : string) : string :=
  string_of_list_ascii
    (rev (lstrip_char "/"%char (rev (list_ascii_of_string s)))).

(** [s.split(",")[0]]: the text before the first comma. *)
Fixpoint first_field (s : list ascii) : list ascii :=
  match s with
  | [] => []
  | a :: s' => if Ascii.eqb a ","%char then [] else a :: first_field s'
  end.

(** [_sanitize_prefix(p)] *)
Definition _sanitize_prefix (p : option string) : string :=
  match truthy p with
  | Some s => if endswith s "/" then s else (s ++ "/")%string
  | None => "/"%string
  end.

(** ** Expiry instant

    A [datetime] in UTC: the date as its proleptic Gregorian ordinal
    ([date.toordinal()], 1970-01-01 being day 719163) and the time of day. *)

Record DateTime : Type := mkDateTime {
  ordinal : Z;
  hour : Z;
  minute : Z;
  second : Z;
  microsecond : Z
}.

Definition valid_time (dt : DateTime) : Prop :=
  (0 <= hour dt < 24)%Z /\ (0 <= minute dt < 60)%Z
  /\ (0 <= second dt < 60)%Z /\ (0 <= microsecond dt < 1000000)%Z.

(** [dt + timedelta(days=n)] *)
Definition add_days (dt : DateTime) (n : Z) : DateTime :=
  mkDateTime (ordinal dt + n) (hour dt) (minute dt) (second dt)
             (microsecond dt).

(** [dt.replace(hour=0, minute=0, second=0, microsecond=0)] *)
Definition replace_midnight (dt : DateTime) : DateTime :=
  mkDateTime (ordinal dt) 0 0 0 0.

(** [dt.timestamp()]: seconds since 1970-01-01T00:00:00Z. *)
Definition timestamp (dt : DateTime) : Q :=
  inject_Z ((ordinal dt - 719163) * 86400
            + hour dt * 3600 + minute dt * 60 + second dt)
  + inject_Z (microsecond dt) / 1000000.

(** [_next_midnight_epoch_utc()], with [now] the reading of the clock. *)
Definition _next_midnight_epoch_utc (now : DateTime) : Z :=
  let tomorrow0 := replace_midnight (add_days now 1) in
  Num.int (timestamp tomorrow0).

(** ** Events

    The fields of the API Gateway event the handler reads.  A missing key
    and a null value are both [None]; [headers] lists the items of the
    header dictionary in order, a repeated key standing for its last
    item. *)

Record Event : Type := mkEvent {
  rawPath : option string;
  path : option string;
  rc_http_method : option string;
  httpMethod : option string;
  body : option string;
  isBase64Encoded : bool;
  headers : option (list (string * string));
  rc_http_sourceIp : option string;
  iam_accountId : option string;
  iam_userArn : option string;
  identity_userArn : option string
}.

(** The dictionary with the given items. *)
Definition dict_of (items : list (string * string)) : gmap string string :=
  fold_left (fun m kv => <[fst kv := snd kv]> m) items ∅.

(** [_headers_lower(event)] *)
Definition _headers_lower (event : Event) : gmap string string :=
  fold_left (fun m kv => <[lower (fst kv) := snd kv]> m)
            (default [] (headers event)) ∅.

(** [_source_ip(event)]; [rc_http_sourceIp] is [None] when the lookup
    [event["requestContext"]["http"]["sourceIp"]] raises. *)
Definition _source_ip (event : Event) : string :=
  match rc_http_sourceIp event with
  | Some ip => ip
  | None =>
      let hdr := dict_of (default [] (headers event)) in
      string_of_list_ascii
        (strip (first_field
                  (list_ascii_of_string
                     (py_or (hdr !! "x-forwarded-for"%string) "0.0.0.0"))))
  end.

(** [_client_id(event)] *)
Definition _client_id (event : Event) : string :=
  py_or (_headers_lower event !! "x-client-id"%string)
        ("ip:" ++ _source_ip event)%string.

(** ** Account of the caller *)

Definition is_digit (c : ascii) : bool :=
  let n := N_of_ascii c in ((48 <=? n) && (n <=? 57))%N.

Fixpoint strip_prefix (p s : list ascii) : option (list ascii) :=
  match p, s with
  | [], _ => Some s
  | _ :: _, [] => None
  | a :: p', b :: s' => if Ascii.eqb a b then strip_prefix p' s' else None
  end.

(** [n] digits at the head of [s], and what follows them. *)
Fixpoint take_digits (n : nat) (s : list ascii)
  : option (list ascii * list ascii) :=
  match n with
  | O => Some ([], s)
  | S n' =>
      match s with
      | [] => None
      | c :: s' =>
          if is_digit c
          then match take_digits n' s' with
               | Some (ds, rest) => Some (c :: ds, rest)
               | None => None
               end
          else None
      end
  end.

(** A match of [arn:aws:(?:iam|sts)::(\d{12}):] at the head of [s]: the
    captured group. *)
Definition arn_match_here (s : list ascii) : option (list ascii) :=
  match strip_prefix (list_ascii_of_string "arn:aws:") s with
  | None => None
  | Some s1 =>
      let after_service :=
        match strip_prefix (list_ascii_of_string "iam") s1 with
        | Some s2 => Some s2
        | None => strip_prefix (list_ascii_of_string "sts") s1
        end in
      match after_service with
      | None => None
      | Some s2 =>
          match strip_prefix (list_ascii_of_string "::") s2 with
          | None => None
          | Some s3 =>
              match take_digits 12 s3 with
              | None => None
              | Some (acc, s4) =>
                  match s4 with
                  | c :: _ => if Ascii.eqb c ":"%char then Some acc else None
                  | [] => None
                  end
              end
          end
      end
  end.

(** [ARN_ACC_RE.search(s)], then [m.group(1)]: the leftmost match. *)
Fixpoint arn_search (s : list ascii) : option (list ascii) :=
  match arn_match_here s with
  | Some acc => Some acc
  | None =>
      match s with
      | [] => None
      | _ :: s' => arn_search s'
      end
  end.

Definition arn_account (arn : string) : option string :=
  option_map string_of_list_ascii (arn_search (list_ascii_of_string arn)).

(** [_caller_account_from_event(event)] *)
Definition _caller_account_from_event (event : Event) : option string :=
  match truthy (iam_accountId event) with
  | Some acc => Some acc
  | None =>
      let from_iam :=
        match truthy (iam_userArn event) with
        | Some arn => arn_account arn
        | None => None
        end in
      match from_iam with
      | Some acc => Some acc
      | None =>
          match truthy (identity_userArn event) with
          | Some arn => arn_account arn
          | None => None
          end
      end
  end.

(** [_is_same_account_admin_request(event)], with [this_account] the value
    of [THIS_ACCOUNT_ID]. *)
Definition _is_same_account_admin_request (this_account : option string)
    (event : Event) : bool :=
  let p := py_or (rawPath event) (py_or (path event) "") in
  if negb (endswith p "/admin/analyze") then false
  else
    match truthy this_account with
    | None => false
    | Some this =>
        match _caller_account_from_event event with
        | Some acc => String.eqb acc this
        | None => false
        end
    end.

(** ** Responses *)

Record LabelIn : Type := mkLabelIn {
  label_Name : option string;
  label_Confidence : option Q;
  label_Parents : list (option string)
}.

(** An entry of the list [_detect_labels_by_s3] returns. *)
Record Label : Type := mkLabel {
  Name : option string;
  LabelConfidence : Q;
  Parents : list string
}.

(** The values found in response bodies. *)
Inductive JValue : Type :=
| JStr (s : string)
| JBool (b : bool)
| JNull
| JTexts (texts : list UniqLine)
| JLabels (labels : list Label).

(** A response body: the empty string, or the JSON text of a dictionary,
    kept here as the dictionary's items. *)
Inductive Body : Type :=
| EmptyBody
| Json (items : list (string * JValue)).

Record HttpResponse : Type := mkHttp {
  http_status : Z;
  http_headers : gmap string string;
  http_body : Body
}.

Definition CORS_HEADERS : gmap string string :=
  {[ "Access-Control-Allow-Origin"%string := "*"%string;
     "Access-Control-Allow-Headers"%string :=
       "content-type,x-client-id,authorization,x-amz-date,x-amz-security-token,x-amz-content-sha256"%string;
     "Access-Control-Allow-Methods"%string := "GET,POST,OPTIONS"%string ]}.

(** [_resp(status, body, headers)]; [h.update(x)] is [x ∪ h]. *)
Definition _resp (status : Z) (body : list (string * JValue))
    (headers : option (gmap string string)) : HttpResponse :=
  let h : gmap string string :=
    {[ "content-type"%string := "application/json"%string ]} in
  let h := CORS_HEADERS ∪ h in
  let h := match headers with
           | Some hs => hs ∪ h
           | None => h
           end in
  mkHttp status h (Json body).

(** [res["headers"][k] = v] *)
Definition set_header (res : HttpResponse) (k v : string) : HttpResponse :=
  mkHttp (http_status res) (<[k := v]> (http_headers res)) (http_body res).

Definition jopt (o : option string) : JValue :=
  match o with
  | Some s => JStr s
  | None => JNull
  end.

(** The response [enforce_quota] raises inside its [RuntimeError], as
    [json.loads(str(rex))] gives it back. *)
Definition quota_response (r : Response) : HttpResponse :=
  _resp (statusCode r)
    [("message"%string,
      JStr ("Daily limit reached (" ++ pretty (ratelimit_limit r)
            ++ "/day). Try again tomorrow.")%string)]
    (Some {[ "x-ratelimit-limit"%string := pretty (ratelimit_limit r);
             "x-ratelimit-remaining"%string := pretty (ratelimit_remaining r) ]}).

(** ** Settings, request data and collaborators *)

Record Settings : Type := mkSettings {
  BUCKET : option string;
  PREFIX : string;
  MIN_CONF : Q;
  MAX_LABELS : Z;
  THIS_ACCOUNT_ID : option string
}.

(** The JSON object of the request body, with the four fields the code
    reads; the bodies covered are the objects whose fields, where present,
    are strings and, for [min_confidence], a number. *)
Record Data : Type := mkData {
  content_base64 : option string;
  filename : option string;
  mode : option string;
  min_confidence : option Q
}.

Definition empty_data : Data := mkData None None None None.

Inductive Raised : Type :=
| BotoClientError (text : string)
| OtherException (text : string).

(** The library and service calls, over a state [W] of the outside world
    (the bucket, the random source).  [None] and [inl] stand for a raised
    exception. *)
Record Externals (W : Type) : Type := mkExternals {
  json_loads_body : string -> bool -> option Data;
  b64decode : string -> option (list Byte.byte);
  splitext_ext : string -> string;
  guess_type : string -> option string;
  uuid4_hex : W -> string * W;
  put_object :
    string -> string -> list Byte.byte -> string -> W -> option Raised * W;
  detect_text : string -> string -> W -> Raised + list Detection;
  detect_labels : string -> string -> Z -> Q -> W -> Raised + list LabelIn
}.

Arguments json_loads_body {W}.
Arguments b64decode {W}.
Arguments splitext_ext {W}.
Arguments guess_type {W}.
Arguments uuid4_hex {W}.
Arguments put_object {W}.
Arguments detect_text {W}.
Arguments detect_labels {W}.

(** ** Labels *)

(** The list built from [resp.get("Labels", [])]. *)
Definition labels_out (labels : list LabelIn) : list Label :=
  map (fun lab =>
         mkLabel (label_Name lab) (default 0 (label_Confidence lab))
                 (omap (fun p => truthy p) (label_Parents lab)))
      labels.

(** [_detect_labels_by_s3(bucket, key)] *)
Definition _detect_labels_by_s3 {W : Type} (ext : Externals W)
    (st : Settings) (bucket key : string) (w : W) : Raised + list Label :=
  match detect_labels ext bucket key (MAX_LABELS st) (MIN_CONF st) w with
  | inl e => inl e
  | inr labels => inr (labels_out labels)
  end.

(** ** Analysis of one upload *)

(** [_guess_content_type(filename)] *)
Definition _guess_content_type {W : Type} (ext : Externals W)
    (filename : string) : string :=
  py_or (guess_type ext filename) "application/octet-stream".

(** The two [except] clauses of [_process_analyze]. *)
Definition error_response (e : Raised) : HttpResponse :=
  match e with
  | BotoClientError text =>
      _resp 502 [("ok"%string, JBool false);
                 ("message"%string, JStr "AWS error");
                 ("detail"%string, JStr text)] None
  | OtherException text =>
      _resp 500 [("ok"%string, JBool false);
                 ("message"%string, JStr "Unhandled");
                 ("detail"%string, JStr text)] None
  end.

(** [data.get("min_confidence") or MIN_CONF] *)
Definition min_conf_of (st : Settings) (data : Data) : Q :=
  match min_confidence data with
  | Some c => if Qeq_bool c 0 then MIN_CONF st else c
  | None => MIN_CONF st
  end.

(** The object key: sanitised prefix, random name, extension. *)
Definition object_key (st : Settings) (hex ext_ : string) : string :=
  (_sanitize_prefix (Some (PREFIX st)) ++ hex ++ ext_)%string.

(** [_process_analyze(data)] *)
Definition _process_analyze {W : Type} (ext : Externals W) (st : Settings)
    (data : Data) (w : W) : HttpResponse * W :=
  match truthy (BUCKET st) with
  | None =>
      (_resp 500 [("ok"%string, JBool false);
                  ("message"%string, JStr "Missing BUCKET_NAME env")] None, w)
  | Some bucket =>
      let fname :=
        py_or (Some (strip_string (py_or (filename data) ""))) "image.jpg" in
      match truthy (content_base64 data) with
      | None =>
          (_resp 400 [("ok"%string, JBool false);
                      ("message"%string, JStr "content_base64 is required")]
                 None, w)
      | Some b64 =>
          match b64decode ext b64 with
          | None =>
              (_resp 400 [("ok"%string, JBool false);
                          ("message"%string, JStr "Invalid base64 payload")]
                     None, w)
          | Some raw =>
              let ext_ :=
                py_or (Some (lower (splitext_ext ext fname))) ".jpg" in
              let '(hex, w1) := uuid4_hex ext w in
              let key := object_key st hex ext_ in
              let guessed := _guess_content_type ext fname in
              let content_type :=
                if String.eqb guessed "application/octet-stream"
                then if String.eqb ext_ ".jpg" || String.eqb ext_ ".jpeg"
                     then "image/jpeg"%string
                     else if String.eqb ext_ ".png" then "image/png"%string
                          else guessed
                else guessed in
              let mode_ := lower (py_or (mode data) "labels") in
              let min_conf := min_conf_of st data in
              let stored := ("s3://" ++ bucket ++ "/" ++ key)%string in
              match put_object ext bucket key raw content_type w1 with
              | (Some e, w2) => (error_response e, w2)
              | (None, w2) =>
                  if String.eqb mode_ "text"
                  then
                    match detect_text ext bucket key w2 with
                    | inl e => (error_response e, w2)
                    | inr dets =>
                        match _detect_text_lines_by_s3 dets min_conf with
                        | None =>
                            (error_response
                               (OtherException "min() arg is an empty sequence"),
                             w2)
                        | Some texts =>
                            (_resp 200 [("stored"%string, JStr stored);
                                        ("mode"%string, JStr "text");
                                        ("texts"%string, JTexts texts)] None,
                             w2)
                        end
                    end
                  else
                    match _detect_labels_by_s3 ext st bucket key w2 with
                    | inl e => (error_response e, w2)
                    | inr labels =>
                        (_resp 200 [("stored"%string, JStr stored);
                                    ("mode"%string, JStr "labels");
                                    ("labels"%string, JLabels labels)] None,
                         w2)
                    end
              end
          end
      end
  end.

(** ** The handler *)

(** [_parse_event(event)] *)
Definition _parse_event {W : Type} (ext : Externals W) (event : Event)
  : string * string * Data * bool :=
  let path0 := py_or (rawPath event) (py_or (path event) "/") in
  let method :=
    upper (py_or (rc_http_method event) (py_or (httpMethod event) "GET")) in
  let is_b64 := isBase64Encoded event in
  let data :=
    match truthy (body event) with
    | Some b => default empty_data (json_loads_body ext b is_b64)
    | None => empty_data
    end in
  (py_or (Some path0) "/", method, data, is_b64).

(** The value of the two rate-limit headers of an accepted request. *)
Definition limit_header (cfg : Config) : string :=
  if FEATURE_QUOTA_ENABLED cfg then pretty (QUOTA_LIMIT cfg)
  else "disabled"%string.

Definition remaining_header (cfg : Config) (new_cnt : Z) : string :=
  if FEATURE_QUOTA_ENABLED cfg
  then pretty (Z.max 0 (QUOTA_LIMIT cfg - new_cnt))
  else "disabled"%string.

(** The outermost [except Exception]. *)
Definition fatal_response (detail : string) : HttpResponse :=
  _resp 500 [("ok"%string, JBool false); ("message"%string, JStr "Fatal");
             ("detail"%string, JStr detail)] None.

(** [lambda_handler(event, context)], with [day] and [ttl] the readings
    [_today_utc_str()] and [_next_midnight_epoch_utc()] give during the
    call.  The state is the quota table and the outside world. *)
Definition lambda_handler {W : Type} (ext : Externals W) (cfg : Config)
    (st : Settings) (event : Event) (day : string) (ttl : Z)
    (tbl : Table) (w : W) : HttpResponse * Table * W :=
  let '(path0, method, data, _) := _parse_event ext event in
  let path_ := py_or (Some (rstrip_slash (py_or (Some path0) "/"))) "/" in
  if String.eqb method "OPTIONS"
  then (mkHttp 204 CORS_HEADERS EmptyBody, tbl, w)
  else if String.eqb path_ "/health" && String.eqb method "GET"
  then (_resp 200 [("ok"%string, JBool true);
                   ("message"%string, JStr "API ↔ Lambda working");
                   ("bucket"%string, jopt (BUCKET st));
                   ("quota_enabled"%string, JBool (FEATURE_QUOTA_ENABLED cfg))]
              None, tbl, w)
  else if String.eqb path_ "/admin/analyze" && String.eqb method "POST"
  then
    if _is_same_account_admin_request (THIS_ACCOUNT_ID st) event
    then
      let '(res, w') := _process_analyze ext st data w in
      (set_header res "x-quota-bypass" "same-account", tbl, w')
    else
      match enforce_quota cfg (_client_id event) day ttl tbl with
      | (Returns _, tbl') =>
          let '(res, w') := _process_analyze ext st data w in (res, tbl', w')
      | (RuntimeError resp, tbl') => (quota_response resp, tbl', w)
      | (Reraised code, tbl') => (fatal_response code, tbl', w)
      | (KeyError, tbl') => (fatal_response "'cnt'", tbl', w)
      end
  else if String.eqb path_ "/analyze" && String.eqb method "POST"
  then
    match enforce_quota cfg (_client_id event) day ttl tbl with
    | (Returns new_cnt, tbl') =>
        let '(res, w') := _process_analyze ext st data w in
        let res := set_header res "x-ratelimit-limit" (limit_header cfg) in
        let res :=
          set_header res "x-ratelimit-remaining"
                     (remaining_header cfg new_cnt) in
        (res, tbl', w')
    | (RuntimeError resp, tbl') => (quota_response resp, tbl', w)
    | (Reraised code, tbl') => (fatal_response code, tbl', w)
    | (KeyError, tbl') => (fatal_response "'cnt'", tbl', w)
    end
  else (_resp 404 [("ok"%string, JBool false);
                   ("message"%string, JStr "Not Found")] None, tbl, w).

(** ** Vocabulary for the further properties *)


(** Whitespace occurs in [l] only as single spaces, each followed by a
    character that is not whitespace or by the end of the text. *)
Fixpoint collapsed (l : list ascii) : bool :=
  match l with
  | [] => true
  | c :: l' =>
      (if is_space c
       then Ascii.eqb c " "
            && match l' with
               | [] => true
               | d :: _ => negb (is_space d)
               end
       else true)
      && collapsed l'
  end.

(** [l] does not start with whitespace. *)
Definition head_not_space (l : list ascii) : bool :=
  match l with
  | [] => true
  | c :: _ => negb (is_space c)
  end.

(** The route of a request, as the handler computes it: the path without
    trailing slashes, the method in upper case, and the decoded body. *)
Definition request_path {W : Type} (ext : Externals W) (event : Event)
  : string :=
  let '(path0, _, _, _) := _parse_event ext event in
  py_or (Some (rstrip_slash (py_or (Some path0) "/"))) "/".

Definition request_method {W : Type} (ext : Externals W) (event : Event)
  : string :=
  let '(_, method, _, _) := _parse_event ext event in method.

Definition request_data {W : Type} (ext : Externals W) (event : Event)
  : Data :=
  let '(_, _, data, _) := _parse_event ext event in data.



(** The response carries the three CORS headers. *)
Definition cors_ok (r : HttpResponse) : Prop :=
  http_headers r !! "Access-Control-Allow-Origin"%string = Some "*"%string
  /\ http_headers r !! "Access-Control-Allow-Headers"%string
     = CORS_HEADERS !! "Access-Control-Allow-Headers"%string
  /\ http_headers r !! "Access-Control-Allow-Methods"%string
     = Some "GET,POST,OPTIONS"%string.

(** Stand-ins for the collaborators, used in examples: the body is taken as
    the payload, every payload decodes, the drawn name is fixed, an upload
    records its key, and the vision service detects nothing. *)
Definition demo_ext : Externals (list string) :=
  mkExternals (list string)
    (fun body _ => Some (mkData (Some body) None None None))
    (fun _ => Some [])
    (fun _ => ""%string)
    (fun _ => None)
    (fun w => ("0123456789abcdef0123456789abcdef"%string, w))
    (fun _ key _ _ w => (None, key :: w))
    (fun _ _ _ => inr [])
    (fun _ _ _ _ _ => inr []).

Definition demo_settings : Settings :=
  mkSettings (Some "bucket"%string) "uploads/" 55 100
             (Some "123456789012"%string).

(** A [POST] of [payload] to [path] by the client [client]. *)
Definition demo_post (path_ client payload : string) : Event :=
  mkEvent (Some path_) None (Some "POST"%string) None (Some payload) false
          (Some [("x-client-id"%string, client)])
          (Some "10.0.0.1"%string) None None None.




(** * Properties *)

(** ** Comparisons, [max] and [min] *)

Lemma ltb_lt (a b : Q) : Num.ltb a b = true <-> a < b.
Proof.
  unfold Num.ltb. rewrite negb_true_iff, <- not_true_iff_false, Qle_bool_iff.
  split; [apply Qnot_le_lt | apply Qlt_not_le].
Qed.

Lemma ltb_ge (a b : Q) : Num.ltb a b = false <-> b <= a.
Proof.
  unfold Num.ltb. rewrite negb_false_iff. apply Qle_bool_iff.
Qed.


Lemma max_cases (a b : Q) :
  (a < b /\ Num.max a b = b) \/ (b <= a /\ Num.max a b = a).
Proof.
  unfold Num.max. destruct (Num.ltb a b) eqn:E.
  - left. split; [now apply ltb_lt | reflexivity].
  - right. split; [now apply ltb_ge | reflexivity].
Qed.

Lemma min_cases (a b : Q) :
  (b < a /\ Num.min a b = b) \/ (a <= b /\ Num.min a b = a).
Proof.
  unfold Num.min. destruct (Num.ltb b a) eqn:E.
  - left. split; [now apply ltb_lt | reflexivity].
  - right. split; [now apply ltb_ge | reflexivity].
Qed.

(** Case split on every [max] and [min] of the goal and the hypotheses. *)
Ltac split_max a b :=
  let H := fresh in let E := fresh in
  destruct (max_cases a b) as [[H E] | [H E]]; rewrite ?E in *; clear E.

Ltac split_min a b :=
  let H := fresh in let E := fresh in
  destruct (min_cases a b) as [[H E] | [H E]]; rewrite ?E in *; clear E.

Ltac split_minmax :=
  repeat match goal with
  | |- context [Num.max ?a ?b] => split_max a b
  | |- context [Num.min ?a ?b] => split_min a b
  | _ : context [Num.max ?a ?b] |- _ => split_max a b
  | _ : context [Num.min ?a ?b] |- _ => split_min a b
  end.

(** ** One-dimensional overlap *)


Lemma overlap_nonneg (a la b lb : Q) : 0 <= overlap a la b lb.
Proof. unfold overlap. split_minmax; lra. Qed.

Lemma overlap_pos (a la b lb : Q) :
  0 < overlap a la b lb ->
  0 < la /\ 0 < lb /\ overlap a la b lb <= la /\ overlap a la b lb <= lb.
Proof. unfold overlap. split_minmax; intros; repeat split; lra. Qed.



Lemma iou_inter_overlap (bb1 bb2 : BoundingBox) :
  iou_inter bb1 bb2
  = overlap (Left bb1) (Width bb1) (Left bb2) (Width bb2)
    * overlap (Top bb1) (Height bb1) (Top bb2) (Height bb2).
Proof. reflexivity. Qed.

Lemma iou_denom_area (bb1 bb2 : BoundingBox) :
  iou_denom bb1 bb2
  == box_area bb1 + box_area bb2 - iou_inter bb1 bb2 + Num.eps.
Proof. unfold iou_denom, box_area. ring. Qed.

(** ** Intersection over union *)

Lemma iou_inter_nonneg (bb1 bb2 : BoundingBox) : 0 <= iou_inter bb1 bb2.
Proof.
  rewrite iou_inter_overlap.
  apply Qmult_le_0_compat; apply overlap_nonneg.
Qed.



Lemma iou_when_zero (bb1 bb2 : BoundingBox) :
  iou_inter bb1 bb2 == 0 -> _iou bb1 bb2 = 0.
Proof.
  intros H. unfold _iou. apply Qeq_bool_iff in H. now rewrite H.
Qed.

Lemma iou_when_nonzero (bb1 bb2 : BoundingBox) :
  ~ iou_inter bb1 bb2 == 0 ->
  _iou bb1 bb2 = iou_inter bb1 bb2 / iou_denom bb1 bb2.
Proof.
  intros H. unfold _iou.
  destruct (Qeq_bool (iou_inter bb1 bb2) 0) eqn:E; [|reflexivity].
  apply Qeq_bool_iff in E. contradiction.
Qed.

(** A non-empty intersection lies inside both boxes, which then have
    positive sides. *)
Lemma iou_inter_pos (bb1 bb2 : BoundingBox) :
  ~ iou_inter bb1 bb2 == 0 ->
  0 < iou_inter bb1 bb2
  /\ iou_inter bb1 bb2 <= box_area bb1
  /\ iou_inter bb1 bb2 <= box_area bb2.
Proof.
  intros Hnz. pose proof (iou_inter_nonneg bb1 bb2) as Hge.
  assert (Hpos : 0 < iou_inter bb1 bb2) by lra.
  split; [exact Hpos|]. clear Hge Hnz.
  rewrite iou_inter_overlap in *. unfold box_area.
  set (w := overlap (Left bb1) (Width bb1) (Left bb2) (Width bb2)) in *.
  set (h := overlap (Top bb1) (Height bb1) (Top bb2) (Height bb2)) in *.
  pose proof (overlap_nonneg (Left bb1) (Width bb1) (Left bb2) (Width bb2)) as Hw.
  pose proof (overlap_nonneg (Top bb1) (Height bb1) (Top bb2) (Height bb2)) as Hh.
  fold w in Hw. fold h in Hh.
  assert (Hw' : 0 < w).
  { destruct (Qlt_le_dec 0 w) as [L|L]; [exact L|].
    assert (w == 0) as Z0 by lra. rewrite Z0 in Hpos. lra. }
  assert (Hh' : 0 < h).
  { destruct (Qlt_le_dec 0 h) as [L|L]; [exact L|].
    assert (h == 0) as Z0 by lra. rewrite Z0 in Hpos. lra. }
  destruct (overlap_pos _ _ _ _ Hw') as (W1 & W2 & W3 & W4).
  destruct (overlap_pos _ _ _ _ Hh') as (H1 & H2 & H3 & H4).
  fold w in W3, W4. fold h in H3, H4.
  split.
  - apply Qle_trans with (w * Height bb1).
    + apply Qmult_le_l; assumption.
    + apply Qmult_le_r; assumption.
  - apply Qle_trans with (w * Height bb2).
    + apply Qmult_le_l; assumption.
    + apply Qmult_le_r; assumption.
Qed.


Lemma iou_denom_bound (bb1 bb2 : BoundingBox) :
  ~ iou_inter bb1 bb2 == 0 ->
  iou_inter bb1 bb2 + Num.eps <= iou_denom bb1 bb2.
Proof.
  intros H. destruct (iou_inter_pos _ _ H) as (Hp & H1 & H2).
  rewrite iou_denom_area. lra.
Qed.




Lemma iou_zero_area (bb1 bb2 : BoundingBox) :
  box_area bb1 == 0 -> iou_inter bb1 bb2 == 0.
Proof.
  intros Ha. destruct (Qeq_dec (iou_inter bb1 bb2) 0) as [Z0|NZ]; [exact Z0|].
  destruct (iou_inter_pos _ _ NZ) as (Hp & H1 & _). lra.
Qed.




(** C9: [_iou] returns a value for every pair of boxes and never divides by
    zero: when the intersection has zero area the result is exactly 0 and
    comes from the early return; when the division is reached the divisor
    is at least the intersection area plus 1e-9, hence above 1e-9; and for
    two boxes of zero area the result is 0 while the divisor expression is
    1e-9. *)
Theorem iou_no_division_by_zero (A B : BoundingBox) :
  (iou_inter A B == 0 -> _iou A B = 0)
  /\ (~ iou_inter A B == 0 ->
      _iou A B = iou_inter A B / iou_denom A B
      /\ Num.eps < iou_denom A B)
  /\ (box_area A == 0 -> box_area B == 0 ->
      _iou A B = 0 /\ iou_denom A B == Num.eps).
Proof.
  split; [apply iou_when_zero|]. split.
  - intros NZ. split; [now apply iou_when_nonzero|].
    pose proof (iou_denom_bound _ _ NZ). destruct (iou_inter_pos _ _ NZ). lra.
  - intros HA HB. pose proof (iou_zero_area A B HA) as Z0.
    split; [now apply iou_when_zero|].
    rewrite iou_denom_area. lra.
Qed.

Lemma iou_no_division_by_zero_witness :
  _iou (mkBox 0 0 0 0) (mkBox 0 0 0 1) = 0
  /\ iou_denom (mkBox 0 0 0 0) (mkBox 0 0 0 1) == Num.eps
  /\ Num.eps < iou_denom unit_box unit_box.
Proof.
  pose proof (iou_no_division_by_zero (mkBox 0 0 0 0) (mkBox 0 0 0 1))
    as (_ & _ & Hdeg).
  pose proof (iou_no_division_by_zero unit_box unit_box) as (_ & Hdiv & _).
  destruct Hdeg as [H1 H2]; [reflexivity | reflexivity |].
  split; [exact H1|]. split; [exact H2|].
  apply Hdiv. intros H. vm_compute in H. discriminate H.
Defined.

(** ** De-duplication *)




Lemma uniq_step_as_line (acc : list UniqLine) (c : UniqLine) :
  uniq_step acc (as_line c) = scan_step acc c.
Proof.
  unfold uniq_step, scan_step. simpl.
  change (is_dup (_norm_text (uText c)) (Box c)) with (duplicate c).
  destruct (existsb (duplicate c) acc); [reflexivity|].
  destruct c as [t cf [l tp w h]]. reflexivity.
Qed.

Lemma uniq_loop_as_line (X : list UniqLine) :
  uniq_loop (map as_line X) = scan X.
Proof.
  unfold uniq_loop, scan. generalize (@nil UniqLine) as acc.
  induction X as [|c X IH]; intros acc; simpl; [reflexivity|].
  rewrite uniq_step_as_line. apply IH.
Qed.

Lemma select_line_as_line (L : list UniqLine) (m : Q) :
  select "LINE" (map as_line L) m = map as_line (confident m L).
Proof.
  unfold select, confident.
  induction L as [|u L IH]; simpl; [reflexivity|].
  destruct (Num.geb (uConfidence u) m); simpl; now rewrite IH.
Qed.

Lemma select_word_as_line (L : list UniqLine) (m : Q) :
  select "WORD" (map as_line L) m = [].
Proof.
  unfold select. induction L as [|u L IH]; simpl; [reflexivity|exact IH].
Qed.

(** On line-level input the source function is the specification's scan. *)
Lemma deduplicate_scan (L : list UniqLine) (m : Q) :
  deduplicate L m = Some (scan (confident m L)).
Proof.
  unfold deduplicate, _detect_text_lines_by_s3.
  rewrite select_line_as_line, select_word_as_line.
  destruct (confident m L) as [|u X] eqn:E; simpl; [reflexivity|].
  f_equal. exact (uniq_loop_as_line (u :: X)).
Qed.

Lemma scan_snoc (X : list UniqLine) (c : UniqLine) :
  scan (X ++ [c]) = scan_step (scan X) c.
Proof. unfold scan. now rewrite fold_left_app. Qed.


Lemma scan_scanned (X : list UniqLine) : scanned (scan X).
Proof.
  induction X as [|c X IH] using rev_ind; [constructor|].
  rewrite scan_snoc. unfold scan_step.
  destruct (existsb (duplicate c) (scan X)) eqn:E; [exact IH|].
  now constructor.
Qed.

Lemma scanned_fixed (U : list UniqLine) : scanned U -> scan U = U.
Proof.
  induction 1 as [|U c HU IH Hc]; [reflexivity|].
  rewrite scan_snoc, IH. unfold scan_step. now rewrite Hc.
Qed.

Lemma scan_sublist (X : list UniqLine) : sublist (scan X) X.
Proof.
  induction X as [|c X IH] using rev_ind; [constructor|].
  rewrite scan_snoc. unfold scan_step.
  destruct (existsb (duplicate c) (scan X)).
  - now apply sublist_inserts_r.
  - apply sublist_app; [exact IH | reflexivity].
Qed.


Lemma confident_all (m : Q) (X : list UniqLine) :
  Forall (fun u => Num.geb (uConfidence u) m = true) X -> confident m X = X.
Proof.
  unfold confident. induction 1 as [|u X Hu HX IH]; simpl; [reflexivity|].
  now rewrite Hu, IH.
Qed.

Lemma confident_Forall (m : Q) (L : list UniqLine) :
  Forall (fun u => Num.geb (uConfidence u) m = true) (confident m L).
Proof.
  unfold confident. apply List.Forall_forall. intros u Hu.
  now apply List.filter_In in Hu.
Qed.



Lemma scan_confident_Forall (m : Q) (L : list UniqLine) :
  Forall (fun u => Num.geb (uConfidence u) m = true) (scan (confident m L)).
Proof.
  pose proof (confident_Forall m L) as HF.
  pose proof (scan_sublist (confident m L)) as HS.
  apply List.Forall_forall. intros u Hu.
  rewrite List.Forall_forall in HF. apply HF.
  apply list_elem_of_In. eapply elem_of_sublist; [|exact HS].
  now apply list_elem_of_In.
Qed.


(** C5: de-duplication is idempotent: applying [deduplicate] to the list it
    returned gives that list again. *)
Theorem deduplicate_idempotent (L : list UniqLine) (m : Q) :
  exists U, deduplicate L m = Some U /\ deduplicate U m = Some U.
Proof.
  exists (scan (confident m L)). split; [apply deduplicate_scan|].
  rewrite deduplicate_scan. f_equal.
  rewrite (confident_all _ _ (scan_confident_Forall m L)).
  apply scanned_fixed, scan_scanned.
Qed.

(** The example of the specification: the same text up to case and spacing;
    with strongly overlapping boxes only the first line survives, with
    weakly overlapping boxes both do. *)
Example deduplicate_total_42 :
  let first := mkUniq "Total: 42" 90 unit_box in
  let near := mkUniq "total:   42" 80 (mkBox 0 0 (8 # 10) 1) in
  let far := mkUniq "total:   42" 80 (mkBox 0 0 (3 # 10) 1) in
  _norm_text "Total: 42" = _norm_text "total:   42"
  /\ deduplicate [first; near] 50 = Some [first]
  /\ deduplicate [first; far] 50 = Some [first; far]
  /\ deduplicate [first; near] 85 = Some [first].
Proof. vm_compute. repeat split. Qed.

(** ** Quota *)

Section Quota.
Local Open Scope Z_scope.

Lemma enforce_quota_inactive (cfg : Config) (u d : string) (ttl : Z)
    (tbl : Table) :
  quota_active cfg = false -> enforce_quota cfg u d ttl tbl = (Returns 0, tbl).
Proof.
  unfold quota_active, enforce_quota. intros H.
  destruct (FEATURE_QUOTA_ENABLED cfg); simpl in *; [|reflexivity].
  apply negb_false_iff in H. now rewrite H.
Qed.

Lemma enforce_quota_active (cfg : Config) (u d : string) (ttl : Z)
    (tbl : Table) :
  quota_active cfg = true ->
  enforce_quota cfg u d ttl tbl
  = if condition_holds (tbl !! quota_key u d) (QUOTA_LIMIT cfg)
    then (Returns (stored_count tbl u d + 1),
          <[quota_key u d := mkItem (Some (stored_count tbl u d + 1)) (Some ttl)]> tbl)
    else (exceeded cfg, tbl).
Proof.
  unfold quota_active, enforce_quota. intros H.
  apply andb_true_iff in H as [H1 H2]. apply negb_true_iff in H2.
  rewrite H1, H2. simpl negb. simpl orb. cbv iota.
  unfold update_item, stored_count, apply_update.
  change (("user#" ++ u)%string, d) with (quota_key u d).
  destruct (condition_holds (tbl !! quota_key u d) (QUOTA_LIMIT cfg));
    reflexivity.
Qed.

Lemma condition_holds_lt (tbl : Table) (u d : string) (lim : Z) :
  has_count tbl u d = true \/ 0 < lim ->
  condition_holds (tbl !! quota_key u d) lim = true
  <-> stored_count tbl u d < lim.
Proof.
  unfold has_count, condition_holds, stored_count.
  destruct (tbl !! quota_key u d ≫= cnt) as [c|]; simpl.
  - intros _. apply Z.ltb_lt.
  - intros [H|H]; [discriminate|]. split; auto.
Qed.

Lemma quota_key_inj (u d u' d' : string) :
  quota_key u d = quota_key u' d' -> u = u' /\ d = d'.
Proof. unfold quota_key. simpl. intros H. injection H. auto. Qed.

Lemma on_key_true (u d : string) (a : Attempt) :
  on_key u d a = true <-> quota_key (a_user a) (a_day a) = quota_key u d.
Proof.
  unfold on_key. rewrite andb_true_iff, !String.eqb_eq. split.
  - intros [-> ->]. reflexivity.
  - intros H. now apply quota_key_inj in H.
Qed.

Lemma on_key_false (u d : string) (a : Attempt) :
  on_key u d a = false -> quota_key (a_user a) (a_day a) <> quota_key u d.
Proof.
  intros H E. apply on_key_true in E. congruence.
Qed.

(** An attempt touches no key but its own. *)
Lemma enforce_quota_frame (cfg : Config) (u' d' : string) (ttl : Z)
    (tbl : Table) (k : string * string) :
  quota_key u' d' <> k ->
  snd (enforce_quota cfg u' d' ttl tbl) !! k = tbl !! k.
Proof.
  intros Hne. destruct (quota_active cfg) eqn:E.
  - rewrite (enforce_quota_active _ _ _ _ _ E).
    destruct (condition_holds _ _); simpl; [|reflexivity].
    now apply lookup_insert_ne.
  - now rewrite (enforce_quota_inactive _ _ _ _ _ E).
Qed.

Lemma stored_count_frame (tbl tbl' : Table) (u d : string) :
  tbl' !! quota_key u d = tbl !! quota_key u d ->
  stored_count tbl' u d = stored_count tbl u d
  /\ has_count tbl' u d = has_count tbl u d.
Proof. unfold stored_count, has_count. now intros ->. Qed.

Lemma stored_count_insert (tbl : Table) (u d : string) (n ttl : Z) :
  stored_count (<[quota_key u d := mkItem (Some n) (Some ttl)]> tbl) u d = n
  /\ has_count (<[quota_key u d := mkItem (Some n) (Some ttl)]> tbl) u d = true.
Proof. unfold stored_count, has_count. now rewrite lookup_insert_eq. Qed.

(** With the limit at least 1, no attempt lifts a count above the limit. *)
Lemma enforce_quota_bounded (cfg : Config) (u' d' : string) (ttl : Z)
    (tbl : Table) (u d : string) :
  0 < QUOTA_LIMIT cfg ->
  stored_count tbl u d <= QUOTA_LIMIT cfg ->
  stored_count (snd (enforce_quota cfg u' d' ttl tbl)) u d <= QUOTA_LIMIT cfg.
Proof.
  intros Hl Hc.
  destruct (decide (quota_key u' d' = quota_key u d)) as [E|NE].
  - apply quota_key_inj in E as [-> ->].
    destruct (quota_active cfg) eqn:A.
    + rewrite (enforce_quota_active _ _ _ _ _ A).
      destruct (condition_holds _ _) eqn:C; simpl; [|exact Hc].
      apply condition_holds_lt in C; [|now right].
      destruct (stored_count_insert tbl u d (stored_count tbl u d + 1) ttl)
        as [-> _]. lia.
    + now rewrite (enforce_quota_inactive _ _ _ _ _ A).
  - pose proof (enforce_quota_frame cfg u' d' ttl tbl _ NE) as F.
    destruct (stored_count_frame _ _ _ _ F) as [-> _]. exact Hc.
Qed.

Lemma run_cons (cfg : Config) (a : Attempt) (rest : list Attempt)
    (tbl : Table) :
  run cfg (a :: rest) tbl
  = (fst (enforce_quota cfg (a_user a) (a_day a) (a_ttl a) tbl)
       :: fst (run cfg rest
                 (snd (enforce_quota cfg (a_user a) (a_day a) (a_ttl a) tbl))),
     snd (run cfg rest
            (snd (enforce_quota cfg (a_user a) (a_day a) (a_ttl a) tbl)))).
Proof.
  simpl. destruct (enforce_quota cfg (a_user a) (a_day a) (a_ttl a) tbl)
    as [o tbl1]. simpl. now destruct (run cfg rest tbl1).
Qed.

Lemma outcomes_on_cons (u d : string) (a : Attempt) (rest : list Attempt)
    (o : Outcome) (os : list Outcome) :
  outcomes_on u d (a :: rest) (o :: os)
  = if on_key u d a then o :: outcomes_on u d rest os
    else outcomes_on u d rest os.
Proof. unfold outcomes_on. simpl. now destruct (on_key u d a). Qed.

Lemma attempts_on_cons (u d : string) (a : Attempt) (rest : list Attempt) :
  attempts_on u d (a :: rest)
  = if on_key u d a then S (attempts_on u d rest) else attempts_on u d rest.
Proof. unfold attempts_on. simpl. now destruct (on_key u d a). Qed.

(** The attempts made on one key, however interleaved with attempts on other
    keys: with [c] the stored count before and [r] the room left below the
    limit, the first [min n r] of the [n] attempts return [c+1], [c+2], ...
    and the others are refused; the count ends at [c + min n r]. *)
Lemma run_on_key (cfg : Config) (u d : string) (attempts : list Attempt) :
  quota_active cfg = true ->
  forall tbl : Table,
    has_count tbl u d = true \/ 0 < QUOTA_LIMIT cfg ->
    let c := stored_count tbl u d in
    let n := attempts_on u d attempts in
    let r := Z.to_nat (QUOTA_LIMIT cfg - c) in
    outcomes_on u d attempts (fst (run cfg attempts tbl))
    = map (fun i => Returns (c + Z.of_nat i)) (seq 1 (Nat.min n r))
      ++ repeat (exceeded cfg) (n - r)
    /\ stored_count (snd (run cfg attempts tbl)) u d
       = c + Z.of_nat (Nat.min n r).
Proof.
  intros Hact. induction attempts as [|a rest IH]; intros tbl Hc.
  - simpl. split; [reflexivity | lia].
  - rewrite run_cons, attempts_on_cons. cbn [fst snd].
    rewrite outcomes_on_cons.
    set (tbl1 := snd (enforce_quota cfg (a_user a) (a_day a) (a_ttl a) tbl)).
    destruct (on_key u d a) eqn:K.
    + pose proof K as K'. unfold on_key in K'.
      apply andb_true_iff in K' as [Ku Kd].
      apply String.eqb_eq in Ku, Kd. subst tbl1. rewrite Ku, Kd.
      rewrite (enforce_quota_active _ _ _ _ _ Hact).
      destruct (condition_holds (tbl !! quota_key u d) (QUOTA_LIMIT cfg))
        eqn:C; cbn [fst snd].
      * apply condition_holds_lt in C; [|exact Hc].
        set (c := stored_count tbl u d) in *.
        destruct (stored_count_insert tbl u d (c + 1) (a_ttl a)) as [S1 S2].
        specialize (IH _ (or_introl S2)). cbv zeta in IH. rewrite S1 in IH.
        destruct IH as [IH1 IH2]. rewrite IH1, IH2.
        set (n := attempts_on u d rest).
        assert (Hr : Z.to_nat (QUOTA_LIMIT cfg - c)
                     = S (Z.to_nat (QUOTA_LIMIT cfg - (c + 1)))) by lia.
        rewrite Hr. cbn [Nat.min Nat.sub seq map app].
        split.
        -- replace (c + Z.of_nat 1) with (c + 1) by lia.
           apply (f_equal (cons (Returns (c + 1)))).
           apply (f_equal (fun l : list Outcome =>
                             l ++ repeat (exceeded cfg)
                                    (n - Z.to_nat (QUOTA_LIMIT cfg - (c + 1))))).
           rewrite <- (seq_shift _ 1), map_map. apply map_ext. intros i.
           apply (f_equal Returns). lia.
        -- lia.
      * assert (Hge : QUOTA_LIMIT cfg <= stored_count tbl u d).
        { destruct (Z.lt_ge_cases (stored_count tbl u d) (QUOTA_LIMIT cfg))
            as [L|L]; [|exact L].
          apply condition_holds_lt in L; [congruence | exact Hc]. }
        specialize (IH tbl Hc). cbv zeta in IH. destruct IH as [IH1 IH2].
        rewrite IH1, IH2.
        assert (Hr : Z.to_nat (QUOTA_LIMIT cfg - stored_count tbl u d) = 0%nat)
          by lia.
        rewrite Hr, !Nat.min_0_r, !Nat.sub_0_r. cbn [seq map app repeat].
        split; [reflexivity | lia].
    + pose proof (enforce_quota_frame cfg (a_user a) (a_day a) (a_ttl a) tbl
                    _ (on_key_false _ _ _ K)) as F. fold tbl1 in F.
      destruct (stored_count_frame _ _ _ _ F) as [F1 F2].
      assert (Hc1 : has_count tbl1 u d = true \/ 0 < QUOTA_LIMIT cfg)
        by (rewrite F2; exact Hc).
      specialize (IH tbl1 Hc1). cbv zeta in IH. rewrite F1 in IH. exact IH.
Qed.

(** C1 (as stated) fails.  With the gate closed the call returns 0 and
    leaves the table alone, whether the stored count is below the limit
    (so 0 is not the new count) or at the limit (so it is not refused); and
    with limit 0 the first attempt on a key without a record succeeds. *)
Lemma enforce_quota_not_conditional :
  let off := mkConfig false (Some "quota"%string) 3 in
  let zero := mkConfig true (Some "quota"%string) 0 in
  (stored_count ∅ "u" "d" = 0
   /\ enforce_quota off "u" "d" 5 ∅ = (Returns 0, ∅))
  /\ (stored_count tbl_three "u" "d" = 3
      /\ enforce_quota off "u" "d" 5 tbl_three = (Returns 0, tbl_three))
  /\ (stored_count ∅ "u" "d" = 0
      /\ fst (enforce_quota zero "u" "d" 5 ∅) = Returns 1).
Proof. repeat split. Qed.

(** C1 (amended): with quota enforcement active (feature enabled and a
    table configured), for every subject, day and limit such that the record
    already holds a count or the limit is at least 1: the attempt succeeds
    if and only if the stored count (a missing record counting as 0) is
    strictly below the limit, and then returns and stores that count plus 1;
    when the stored count is at or above the limit it fails with the 429
    outcome and the table is unchanged.  With enforcement inactive the call
    returns 0 and leaves the table unchanged. *)
Theorem enforce_quota_conditional (cfg : Config) (u d : string) (ttl : Z)
    (tbl : Table) :
  let pre := stored_count tbl u d in
  let res := enforce_quota cfg u d ttl tbl in
  (quota_active cfg = true ->
   has_count tbl u d = true \/ 0 < QUOTA_LIMIT cfg ->
   (pre < QUOTA_LIMIT cfg ->
    fst res = Returns (pre + 1)
    /\ stored_count (snd res) u d = pre + 1
    /\ snd res !! quota_key u d = Some (mkItem (Some (pre + 1)) (Some ttl)))
   /\ (QUOTA_LIMIT cfg <= pre -> res = (exceeded cfg, tbl))
   /\ (is_success (fst res) = true <-> pre < QUOTA_LIMIT cfg))
  /\ (quota_active cfg = false -> res = (Returns 0, tbl)).
Proof.
  cbv zeta. split; [|apply enforce_quota_inactive].
  intros Hact Hc. rewrite (enforce_quota_active _ _ _ _ _ Hact).
  pose proof (condition_holds_lt tbl u d (QUOTA_LIMIT cfg) Hc) as Hiff.
  destruct (condition_holds (tbl !! quota_key u d) (QUOTA_LIMIT cfg));
    cbn [fst snd].
  - assert (Hlt : stored_count tbl u d < QUOTA_LIMIT cfg)
      by now apply Hiff.
    split; [|split].
    + intros _. split; [reflexivity|].
      split; [apply stored_count_insert | apply lookup_insert_eq].
    + intros Hge. lia.
    + simpl. split; auto.
  - assert (Hge : ~ stored_count tbl u d < QUOTA_LIMIT cfg).
    { intros Hlt. apply Hiff in Hlt. discriminate. }
    split; [|split].
    + intros Hlt. contradiction.
    + reflexivity.
    + simpl. split; [discriminate | contradiction].
Qed.

Lemma enforce_quota_conditional_witness :
  let cfg := mkConfig true (Some "quota"%string) 3 in
  fst (enforce_quota cfg "u" "d" 5 ∅) = Returns 1
  /\ enforce_quota cfg "u" "d" 5 tbl_three = (exceeded cfg, tbl_three)
  /\ enforce_quota (mkConfig false None 3) "u" "d" 5 tbl_three
     = (Returns 0, tbl_three).
Proof.
  cbv zeta.
  pose proof (enforce_quota_conditional
                (mkConfig true (Some "quota"%string) 3) "u" "d" 5 ∅)
    as [H1 _].
  pose proof (enforce_quota_conditional
                (mkConfig true (Some "quota"%string) 3) "u" "d" 5 tbl_three)
    as [H2 _].
  pose proof (enforce_quota_conditional
                (mkConfig false None 3) "u" "d" 5 tbl_three)
    as [_ H3].
  split; [|split].
  - refine (proj1 (proj1 (H1 eq_refl (or_intror eq_refl)) eq_refl)).
  - refine (proj1 (proj2 (H2 eq_refl (or_intror eq_refl))) _).
    discriminate.
  - exact (H3 eq_refl).
Defined.

(** C2 (defect at limit 0): the claim wants the stored count never above the
    limit.  With [QUOTA_LIMIT = 0] the first attempt on a key without a
    record passes the condition [attribute_not_exists(cnt)]: it returns 1
    and stores count 1, above the limit, a state that is neither COUNTING
    nor SATURATED. *)
Theorem quota_limit_zero_overshoots :
  let cfg := mkConfig true (Some "quota"%string) 0 in
  let res := run cfg [mkAttempt "u" "d" 5] ∅ in
  key_state 0 ∅ "u" "d" = ABSENT
  /\ fst res = [Returns 1]
  /\ stored_count (snd res) "u" "d" = 1
  /\ key_state 0 (snd res) "u" "d" = OVERSHOT 1.
Proof. repeat split. Qed.

(** For a limit of at least 1 the key moves as the specification draws it:
    ABSENT or COUNTING to COUNTING or SATURATED on success, and SATURATED
    stays SATURATED on a refused attempt. *)
Lemma key_state_step (cfg : Config) (u d : string) (ttl : Z) (tbl : Table) :
  quota_active cfg = true -> 0 < QUOTA_LIMIT cfg ->
  let lim := QUOTA_LIMIT cfg in
  let res := enforce_quota cfg u d ttl tbl in
  match key_state lim tbl u d with
  | ABSENT =>
      fst res = Returns 1
      /\ key_state lim (snd res) u d
         = (if 1 <? lim then COUNTING 1 else SATURATED)
  | COUNTING c =>
      fst res = Returns (c + 1)
      /\ key_state lim (snd res) u d
         = (if c + 1 <? lim then COUNTING (c + 1) else SATURATED)
  | SATURATED => res = (exceeded cfg, tbl)
  | OVERSHOT _ => res = (exceeded cfg, tbl)
  end.
Proof.
  intros Hact Hl. cbv zeta. rewrite (enforce_quota_active _ _ _ _ _ Hact).
  unfold key_state at 1, condition_holds, stored_count.
  destruct (tbl !! quota_key u d ≫= cnt) as [c|] eqn:E; simpl.
  - destruct (c <? QUOTA_LIMIT cfg) eqn:C.
    + split; [reflexivity|]. unfold key_state. cbn [snd].
      rewrite lookup_insert_eq. simpl.
      apply Z.ltb_lt in C.
      destruct (c + 1 <? QUOTA_LIMIT cfg) eqn:C1; [reflexivity|].
      apply Z.ltb_ge in C1.
      assert (c + 1 = QUOTA_LIMIT cfg) as -> by lia.
      now rewrite Z.eqb_refl.
    + destruct (c =? QUOTA_LIMIT cfg); reflexivity.
  - split; [reflexivity|]. unfold key_state. cbn [snd].
    rewrite lookup_insert_eq. cbn [mbind option_bind cnt].
    change (0 + 1) with 1.
    destruct (1 <? QUOTA_LIMIT cfg) eqn:C1; [reflexivity|].
    apply Z.ltb_ge in C1.
    assert (1 = QUOTA_LIMIT cfg) as <- by lia. reflexivity.
Qed.

Lemma filter_success_outcomes (cfg : Config) (f : nat -> Z) (l : list nat)
    (k : nat) :
  List.filter is_success (map (fun i => Returns (f i)) l
                          ++ repeat (exceeded cfg) k)
  = map (fun i => Returns (f i)) l.
Proof.
  rewrite List.filter_app.
  replace (List.filter is_success (repeat (exceeded cfg) k)) with (@nil Outcome).
  - rewrite app_nil_r. induction l as [|i l IH]; simpl; [reflexivity|].
    now rewrite IH.
  - induction k as [|k IH]; simpl; [reflexivity | exact IH].
Qed.

Lemma filter_exceeded_outcomes (cfg : Config) (f : nat -> Z) (l : list nat)
    (k : nat) :
  List.filter is_quota_exceeded (map (fun i => Returns (f i)) l
                                 ++ repeat (exceeded cfg) k)
  = repeat (exceeded cfg) k.
Proof.
  rewrite List.filter_app.
  replace (List.filter is_quota_exceeded (map (fun i => Returns (f i)) l))
    with (@nil Outcome).
  - simpl. induction k as [|k IH]; simpl; [reflexivity|]. now rewrite IH.
  - induction l as [|i l IH]; simpl; [reflexivity | exact IH].
Qed.

(** C3 (as stated) fails.  With the gate closed, limit 3 and four attempts
    on one key, all four succeed and nothing is stored; with limit 0 one
    attempt succeeds where none should, and the count ends at 1. *)
Lemma quota_not_exact :
  let off := mkConfig false (Some "quota"%string) 3 in
  let zero := mkConfig true (Some "quota"%string) 0 in
  let four := repeat (mkAttempt "u" "d" 5) 4 in
  (run off four ∅ = (repeat (Returns 0) 4, ∅))
  /\ (fst (run zero [mkAttempt "u" "d" 5] ∅) = [Returns 1]
      /\ stored_count (snd (run zero [mkAttempt "u" "d" 5] ∅)) "u" "d" = 1).
Proof. repeat split. Qed.

(** C3 (amended): the store applies each conditional update atomically, so
    racing attempts reach it in some order, interleaved with attempts on
    other keys.  With quota enforcement active and a limit [L >= 1], for
    every such order in which [N >= L] attempts are made on one (subject,
    day) key that had no record: exactly [L] of them succeed, returning the
    distinct counts 1, ..., [L] in that order, the other [N - L] fail with
    the 429 outcome, and the stored count ends at [L]. *)
Theorem quota_exact_under_interleaving (cfg : Config) (u d : string)
    (attempts : list Attempt) (tbl : Table) :
  quota_active cfg = true ->
  0 < QUOTA_LIMIT cfg ->
  tbl !! quota_key u d = None ->
  (Z.to_nat (QUOTA_LIMIT cfg) <= attempts_on u d attempts)%nat ->
  let L := Z.to_nat (QUOTA_LIMIT cfg) in
  let N := attempts_on u d attempts in
  let outs := outcomes_on u d attempts (fst (run cfg attempts tbl)) in
  outs = map (fun i => Returns (Z.of_nat i)) (seq 1 L)
         ++ repeat (exceeded cfg) (N - L)
  /\ length (List.filter is_success outs) = L
  /\ length (List.filter is_quota_exceeded outs) = (N - L)%nat
  /\ stored_count (snd (run cfg attempts tbl)) u d = QUOTA_LIMIT cfg.
Proof.
  intros Hact Hl Habs HN. cbv zeta.
  destruct (run_on_key cfg u d attempts Hact tbl (or_intror Hl)) as [Ho Hs].
  assert (Hc : stored_count tbl u d = 0)
    by (unfold stored_count; now rewrite Habs).
  rewrite Hc in Ho, Hs. rewrite Z.sub_0_r in Ho, Hs.
  rewrite Nat.min_r in Ho, Hs by exact HN.
  assert (Ho' : outcomes_on u d attempts (fst (run cfg attempts tbl))
                = map (fun i => Returns (Z.of_nat i))
                      (seq 1 (Z.to_nat (QUOTA_LIMIT cfg)))
                  ++ repeat (exceeded cfg)
                       (attempts_on u d attempts - Z.to_nat (QUOTA_LIMIT cfg))).
  { rewrite Ho. reflexivity. }
  rewrite Ho'. split; [reflexivity|].
  rewrite filter_success_outcomes, filter_exceeded_outcomes.
  rewrite length_map, length_seq, repeat_length.
  split; [reflexivity|]. split; [reflexivity|]. lia.
Qed.

Lemma quota_exact_under_interleaving_witness :
  let cfg := mkConfig true (Some "quota"%string) 2 in
  let attempts :=
    [mkAttempt "u" "d" 5; mkAttempt "v" "d" 5; mkAttempt "u" "d" 5;
     mkAttempt "u" "e" 6; mkAttempt "u" "d" 5] in
  outcomes_on "u" "d" attempts (fst (run cfg attempts ∅))
  = [Returns 1; Returns 2; exceeded cfg]
  /\ stored_count (snd (run cfg attempts ∅)) "u" "d" = 2.
Proof.
  cbv zeta.
  pose proof (quota_exact_under_interleaving
                (mkConfig true (Some "quota"%string) 2) "u" "d"
                [mkAttempt "u" "d" 5; mkAttempt "v" "d" 5; mkAttempt "u" "d" 5;
                 mkAttempt "u" "e" 6; mkAttempt "u" "d" 5] ∅
                eq_refl eq_refl eq_refl) as H.
  cbv zeta in H.
  destruct H as (H1 & _ & _ & H4).
  - vm_compute. repeat constructor.
  - split; [exact H1 | exact H4].
Defined.

End Quota.

(** ** Stable sorting *)

Section StableSortFacts.
Context {A K : Type} (lt : K -> K -> bool) (key : A -> K).
Hypothesis lt_asym : forall x y, lt x y = true -> lt y x = false.
Hypothesis ge_trans :
  forall x y z, lt y x = false -> lt z y = false -> lt z x = false.

(** [a] may stand before [b]: the key of [b] is not below the key of [a]. *)
Let le (a b : A) : Prop := lt (key b) (key a) = false.

Lemma insert_by_perm (x : A) (l : list A) :
  Permutation (insert_by lt key x l) (x :: l).
Proof.
  induction l as [|y l IH]; simpl; [reflexivity|].
  destruct (lt (key y) (key x)); [|reflexivity].
  rewrite IH. apply perm_swap.
Qed.

Lemma sort_by_perm (l : list A) : Permutation (sort_by lt key l) l.
Proof.
  induction l as [|x l IH]; simpl; [reflexivity|].
  rewrite insert_by_perm. now constructor.
Qed.

Lemma insert_by_sorted (x : A) (l : list A) :
  StronglySorted le l -> StronglySorted le (insert_by lt key x l).
Proof.
  induction 1 as [|y l Hs IH Hy]; simpl.
  - constructor; constructor.
  - destruct (lt (key y) (key x)) eqn:E.
    + constructor; [exact IH|].
      eapply Permutation_Forall;
        [symmetry; apply insert_by_perm|].
      constructor; [now apply lt_asym | exact Hy].
    + constructor; [now constructor|].
      constructor; [exact E|].
      eapply List.Forall_impl; [|exact Hy].
      intros z Hz. unfold le in *. now apply ge_trans with (key y).
Qed.

Lemma sort_by_sorted (l : list A) : StronglySorted le (sort_by lt key l).
Proof.
  induction l as [|x l IH]; simpl; [constructor|].
  now apply insert_by_sorted.
Qed.

(** Sorting leaves a sorted list as it is. *)
Lemma sort_by_fixed (l : list A) : StronglySorted le l -> sort_by lt key l = l.
Proof.
  induction 1 as [|x l Hs IH Hx]; simpl; [reflexivity|].
  rewrite IH. destruct l as [|y l]; simpl; [reflexivity|].
  inversion Hx as [|? ? Hxy _]; subst. unfold le in Hxy. now rewrite Hxy.
Qed.


End StableSortFacts.

(** ** The orders used by grouping *)

Lemma ltb_asym (x y : Q) : Num.ltb x y = true -> Num.ltb y x = false.
Proof. rewrite ltb_lt, ltb_ge. apply Qlt_le_weak. Qed.

Lemma ltb_ge_trans (x y z : Q) :
  Num.ltb y x = false -> Num.ltb z y = false -> Num.ltb z x = false.
Proof. rewrite !ltb_ge. apply Qle_trans. Qed.

Lemma Zltb_asym (x y : Z) : Z.ltb x y = true -> Z.ltb y x = false.
Proof. rewrite Z.ltb_lt, Z.ltb_ge. lia. Qed.

Lemma Zltb_ge_trans (x y z : Z) :
  Z.ltb y x = false -> Z.ltb z y = false -> Z.ltb z x = false.
Proof. rewrite !Z.ltb_ge. lia. Qed.

Lemma key_lt_asym (x y : Z * Q) : key_lt x y = true -> key_lt y x = false.
Proof.
  unfold key_lt. rewrite (Z.eqb_sym (fst y)).
  destruct (Z.eqb (fst x) (fst y)); [apply ltb_asym | apply Zltb_asym].
Qed.

Lemma key_lt_ge_trans (x y z : Z * Q) :
  key_lt y x = false -> key_lt z y = false -> key_lt z x = false.
Proof.
  unfold key_lt.
  destruct (Z.eqb_spec (fst y) (fst x)) as [E1|N1];
    destruct (Z.eqb_spec (fst z) (fst y)) as [E2|N2];
    destruct (Z.eqb_spec (fst z) (fst x)) as [E3|N3];
    rewrite ?Z.ltb_ge, ?ltb_ge; intros H1 H2; try lia.
  - now apply Qle_trans with (snd y).
Qed.

(** ** Filling the rows *)

Lemma row_words_snoc (r : Z) (seen : list Detection) (w : Detection) :
  row_words r (seen ++ [w])
  = row_words r seen ++ (if Z.eqb (row_of w) r then [w] else []).
Proof. unfold row_words. rewrite List.filter_app. reflexivity. Qed.

Lemma setdefault_append_spec (r : Z) (w : Detection) (rows : Rows) :
  (In r (map fst rows) ->
   exists pre l post,
     rows = pre ++ (r, l) :: post
     /\ ~ In r (map fst pre)
     /\ setdefault_append r w rows = pre ++ (r, l ++ [w]) :: post)
  /\ (~ In r (map fst rows) -> setdefault_append r w rows = rows ++ [(r, [w])]).
Proof.
  induction rows as [|[r' l'] rows [IH1 IH2]]; simpl.
  - split; [intros [] | reflexivity].
  - destruct (Z.eqb_spec r' r) as [E|NE].
    + subst r'. split.
      * intros _. exists [], l', rows. simpl. auto.
      * intros H. exfalso. apply H. now left.
    + split.
      * intros [H|H]; [contradiction|].
        destruct (IH1 H) as (pre & l & post & E1 & E2 & E3).
        exists ((r', l') :: pre), l, post. simpl. rewrite E1 at 1.
        split; [reflexivity|]. split; [|now rewrite E3].
        intros [H'|H']; [contradiction | now apply E2].
      * intros H. rewrite IH2; [reflexivity|]. intros H'. apply H. now right.
Qed.

Lemma rows_inv_covers (rows : Rows) (seen : list Detection) (w : Detection) :
  rows_inv rows seen -> In w seen -> In (row_of w) (map fst rows).
Proof.
  intros (_ & HF & HP) Hw.
  apply (Permutation_in _ (Permutation_sym HP)) in Hw.
  apply in_concat in Hw as (l & Hl & Hwl).
  apply in_map_iff in Hl as ([r l'] & E & Hkv). simpl in E. subst l'.
  rewrite List.Forall_forall in HF. destruct (HF _ Hkv) as [E _].
  simpl in E. rewrite E in Hwl. unfold row_words in Hwl.
  apply List.filter_In in Hwl as [_ Hr]. apply Z.eqb_eq in Hr.
  rewrite Hr. apply in_map_iff. exists (r, l). auto.
Qed.

Lemma row_words_fresh (rows : Rows) (seen : list Detection) (r : Z) :
  rows_inv rows seen -> ~ In r (map fst rows) -> row_words r seen = [].
Proof.
  intros Hinv Hr. unfold row_words.
  destruct (List.filter (fun w => Z.eqb (row_of w) r) seen) as [|w l] eqn:E;
    [reflexivity|].
  assert (Hw : In w (List.filter (fun w => Z.eqb (row_of w) r) seen))
    by (rewrite E; now left).
  apply List.filter_In in Hw as [Hw Hk]. apply Z.eqb_eq in Hk.
  exfalso. apply Hr. rewrite <- Hk. eapply rows_inv_covers; eauto.
Qed.

Lemma rows_inv_step (rows : Rows) (seen : list Detection) (w : Detection) :
  rows_inv rows seen ->
  rows_inv (setdefault_append (row_of w) w rows) (seen ++ [w]).
Proof.
  intros Hinv. pose proof Hinv as (HN & HF & HP).
  destruct (setdefault_append_spec (row_of w) w rows) as [Hin Hout].
  destruct (in_dec Z.eq_dec (row_of w) (map fst rows)) as [I|NI].
  - destruct (Hin I) as (pre & l & post & E & Hpre & ->). subst rows.
    rewrite map_app in HN. simpl in HN.
    assert (Hpost : ~ In (row_of w) (map fst post)).
    { pose proof (List.NoDup_remove_2 _ _ _ HN) as HN2. intros H. apply HN2.
      apply in_or_app. now right. }
    apply Forall_app in HF as [HF1 HF2].
    inversion HF2 as [|? ? [Hl Hne] HF3]; subst. simpl in Hl, Hne.
    assert (Hkeep : forall part, ~ In (row_of w) (map fst part) ->
              Forall (fun kv => snd kv = row_words (fst kv) seen /\ snd kv <> [])
                     part ->
              Forall (fun kv => snd kv = row_words (fst kv) (seen ++ [w])
                                /\ snd kv <> []) part).
    { intros part Hp HFp. apply List.Forall_forall. intros kv Hkv.
      rewrite List.Forall_forall in HFp. destruct (HFp _ Hkv) as [E1 E2].
      split; [|exact E2]. rewrite row_words_snoc.
      destruct (Z.eqb_spec (row_of w) (fst kv)) as [E|_].
      - exfalso. apply Hp. rewrite E. now apply in_map.
      - now rewrite app_nil_r. }
    repeat split.
    + rewrite map_app. exact HN.
    + apply Forall_app. split; [now apply Hkeep|].
      constructor; [|now apply Hkeep]. simpl. split.
      * rewrite row_words_snoc, Z.eqb_refl. now rewrite <- Hl.
      * intros H. now apply app_eq_nil in H as [_ H].
    + rewrite map_app, concat_app in *. simpl in *.
      rewrite <- !app_assoc. simpl. rewrite app_assoc.
      etransitivity; [symmetry; apply Permutation_middle|].
      rewrite <- app_assoc, HP. apply Permutation_cons_append.
  - rewrite (Hout NI). repeat split.
    + rewrite map_app. simpl.
      apply (Permutation_NoDup (l := row_of w :: map fst rows)).
      * apply Permutation_cons_append.
      * now constructor.
    + apply Forall_app. split.
      * apply List.Forall_forall. intros kv Hkv.
        rewrite List.Forall_forall in HF. destruct (HF _ Hkv) as [E1 E2].
        split; [|exact E2]. rewrite row_words_snoc.
        destruct (Z.eqb_spec (row_of w) (fst kv)) as [E|_].
        -- exfalso. apply NI. rewrite E. now apply in_map.
        -- now rewrite app_nil_r.
      * constructor; [|constructor]. simpl. split; [|discriminate].
        rewrite row_words_snoc, Z.eqb_refl.
        now rewrite (row_words_fresh _ _ _ Hinv NI).
    + rewrite map_app, concat_app. simpl. now apply Permutation_app.
Qed.

Lemma fill_rows_inv (words : list Detection) :
  rows_inv (fill_rows words) words.
Proof.
  unfold fill_rows.
  assert (G : forall ws rows seen,
             rows_inv rows seen ->
             rows_inv (fold_left
                         (fun rows w => setdefault_append (row_of w) w rows)
                         ws rows)
                      (seen ++ ws)).
  { induction ws as [|w ws IH]; intros rows seen Hinv; simpl.
    - now rewrite app_nil_r.
    - replace (seen ++ w :: ws) with ((seen ++ [w]) ++ ws)
        by now rewrite <- app_assoc.
      apply IH. now apply rows_inv_step. }
  apply (G words [] []). repeat split; constructor.
Qed.

(** ** Minimum, maximum and mean of a row *)

Lemma fold_min_spec (xs : list Q) (a : Q) :
  let m := fold_left Num.min xs a in
  (m = a \/ In m xs) /\ m <= a /\ Forall (fun x => m <= x) xs.
Proof.
  revert a. induction xs as [|x xs IH]; intros a; simpl.
  - split; [now left|]. split; [apply Qle_refl | constructor].
  - destruct (IH (Num.min a x)) as (H1 & H2 & H3).
    destruct (min_cases a x) as [[Hlt E]|[Hle E]]; rewrite E in *.
    + split; [destruct H1; auto|]. split; [lra|].
      constructor; [exact H2 | exact H3].
    + split; [destruct H1; auto|]. split; [exact H2|].
      constructor; [lra | exact H3].
Qed.

Lemma fold_max_spec (xs : list Q) (a : Q) :
  let m := fold_left Num.max xs a in
  (m = a \/ In m xs) /\ a <= m /\ Forall (fun x => x <= m) xs.
Proof.
  revert a. induction xs as [|x xs IH]; intros a; simpl.
  - split; [now left|]. split; [apply Qle_refl | constructor].
  - destruct (IH (Num.max a x)) as (H1 & H2 & H3).
    destruct (max_cases a x) as [[Hlt E]|[Hle E]]; rewrite E in *.
    + split; [destruct H1; auto|]. split; [lra|].
      constructor; [exact H2 | exact H3].
    + split; [destruct H1; auto|]. split; [exact H2|].
      constructor; [lra | exact H3].
Qed.

Lemma py_min_spec (l : list Q) :
  l <> [] -> exists m, py_min l = Some m /\ is_min m l.
Proof.
  destruct l as [|x xs]; [congruence|]. intros _.
  exists (fold_left Num.min xs x). split; [reflexivity|].
  destruct (fold_min_spec xs x) as (H1 & H2 & H3). split.
  - apply List.Exists_exists. exists (fold_left Num.min xs x).
    split; [|reflexivity]. destruct H1 as [->|H1]; [now left | now right].
  - now constructor.
Qed.

Lemma py_max_spec (l : list Q) :
  l <> [] -> exists m, py_max l = Some m /\ is_max m l.
Proof.
  destruct l as [|x xs]; [congruence|]. intros _.
  exists (fold_left Num.max xs x). split; [reflexivity|].
  destruct (fold_max_spec xs x) as (H1 & H2 & H3). split.
  - apply List.Exists_exists. exists (fold_left Num.max xs x).
    split; [|reflexivity]. destruct H1 as [->|H1]; [now left | now right].
  - now constructor.
Qed.

Lemma is_max_compat (m m' : Q) (l : list Q) :
  m == m' -> is_max m l -> is_max m' l.
Proof.
  intros E [H1 H2]. split.
  - apply List.Exists_exists. apply List.Exists_exists in H1 as (x & Hx & Hxm).
    exists x. split; [exact Hx | now rewrite Hxm].
  - eapply List.Forall_impl; [|exact H2]. intros x Hx. simpl in Hx.
    now rewrite <- E.
Qed.

Lemma combine_map_self {A B : Type} (f : A -> B) (l : list A) :
  combine (map f l) l = map (fun x => (f x, x)) l.
Proof. induction l as [|x l IH]; simpl; [reflexivity | now rewrite IH]. Qed.

(** A non-empty row yields its line, and that line is the one the
    specification describes. *)
Lemma line_of_row_describes (ws : list Detection) :
  ws <> [] -> exists line, line_of_row ws = Some line /\ describes ws line.
Proof.
  intros Hne. unfold line_of_row. rewrite !combine_map_self, !map_map.
  cbn [fst snd].
  change (map (fun x => Left (Geometry x) + Width (Geometry x)) ws)
    with (map (fun w => box_right (Geometry w)) ws).
  change (map (fun x => Top (Geometry x) + Height (Geometry x)) ws)
    with (map (fun w => box_bottom (Geometry w)) ws).
  assert (Hm : forall f : Detection -> Q, map f ws <> []).
  { intros f H. apply map_eq_nil in H. contradiction. }
  destruct (py_min_spec _ (Hm (fun w => Left (Geometry w)))) as (ml & -> & Hl).
  destruct (py_min_spec _ (Hm (fun w => Top (Geometry w)))) as (mt & -> & Ht).
  destruct (py_max_spec _ (Hm (fun w => box_right (Geometry w))))
    as (mr & -> & Hr).
  destruct (py_max_spec _ (Hm (fun w => box_bottom (Geometry w))))
    as (mb & -> & Hb).
  eexists. split; [reflexivity|]. unfold describes. cbn.
  split; [reflexivity|]. split.
  - unfold mean. rewrite length_map.
    destruct ws as [|w ws]; [congruence|].
    replace (Z.max 1 (Z.of_nat (length (w :: ws))))
      with (Z.of_nat (length (w :: ws))) by (simpl length; lia).
    reflexivity.
  - split; [exact Hl|]. split; [exact Ht|]. split.
    + apply (is_max_compat mr); [unfold box_right; cbn; ring | exact Hr].
    + apply (is_max_compat mb); [unfold box_bottom; cbn; ring | exact Hb].
Qed.

Lemma traverse_Forall2 {A B : Type} (f : A -> option B) (P : A -> B -> Prop)
    (l : list A) :
  Forall (fun x => exists y, f x = Some y /\ P x y) l ->
  exists ys, traverse f l = Some ys /\ Forall2 P l ys.
Proof.
  induction 1 as [|x l (y & Hy & Hp) _ (ys & Hys & HF)]; simpl.
  - exists []. split; [reflexivity | constructor].
  - exists (y :: ys). rewrite Hy, Hys. split; [reflexivity | now constructor].
Qed.

Lemma traverse_map {A B C : Type} (g : A -> B) (f : B -> option C)
    (l : list A) :
  traverse f (map g l) = traverse (fun x => f (g x)) l.
Proof.
  induction l as [|x l IH]; simpl; [reflexivity|]. now rewrite IH.
Qed.

(** ** The rows of a grouping *)

Lemma group_fst (words : list Detection) :
  fst (_group_words_into_lines words) = sort_by key_lt word_key words.
Proof. destruct words; reflexivity. Qed.

Lemma group_snd (words : list Detection) :
  snd (_group_words_into_lines words)
  = traverse (fun kv : Z * list Detection => line_of_row (snd kv))
             (group_rows words).
Proof.
  unfold group_rows. rewrite traverse_map.
  destruct words; reflexivity.
Qed.

Lemma Permutation_concat_snd (rows rows' : Rows) :
  Permutation rows rows' ->
  Permutation (concat (map snd rows)) (concat (map snd rows')).
Proof.
  induction 1 as [|kv l l' _ IH|a b l|l l' l'' _ IH1 _ IH2]; simpl.
  - reflexivity.
  - now apply Permutation_app_head.
  - rewrite !app_assoc. apply Permutation_app_tail, Permutation_app_comm.
  - now transitivity (concat (map snd l')).
Qed.

Lemma rows_inv_perm (rows rows' : Rows) (seen : list Detection) :
  Permutation rows rows' -> rows_inv rows seen -> rows_inv rows' seen.
Proof.
  intros HP (HN & HF & HC). repeat split.
  - eapply Permutation_NoDup; [|exact HN]. now apply Permutation_map.
  - eapply Permutation_Forall; eauto.
  - rewrite <- HC. symmetry. now apply Permutation_concat_snd.
Qed.

Lemma StronglySorted_impl {A : Type} (R R' : A -> A -> Prop) (l : list A) :
  (forall a b, In a l -> In b l -> R a b -> R' a b) ->
  StronglySorted R l -> StronglySorted R' l.
Proof.
  intros HR. induction 1 as [|x l Hs IH Hx]; constructor.
  - apply IH. intros a b Ha Hb. apply HR; now right.
  - rewrite List.Forall_forall in *. intros y Hy.
    apply HR; [now left | now right | now apply Hx].
Qed.

Lemma StronglySorted_map_fst (rows : Rows) :
  StronglySorted (fun a b : Z * list Detection => Z.ltb (fst b) (fst a) = false)
                 rows ->
  List.NoDup (map fst rows) ->
  StronglySorted Z.lt (map fst rows).
Proof.
  induction 1 as [|kv l Hs IH Hx]; simpl; intros HN; [constructor|].
  inversion HN as [|? ? Hnin HN']; subst. constructor; [now apply IH|].
  rewrite List.Forall_forall in *. intros r Hr.
  apply in_map_iff in Hr as (kv' & <- & Hkv').
  specialize (Hx _ Hkv'). apply Z.ltb_ge in Hx.
  assert (fst kv <> fst kv').
  { intros E. apply Hnin. rewrite E. now apply in_map. }
  lia.
Qed.

(** The rows visited by the last loop: sorted by key, keys distinct, each
    row the words of its key. *)
Lemma sorted_rows_inv (words : list Detection) :
  let rows := sort_by Z.ltb fst (fill_rows words) in
  rows_inv rows words /\ StronglySorted Z.lt (map fst rows).
Proof.
  cbv zeta.
  pose proof (sort_by_perm Z.ltb fst (fill_rows words)) as HP.
  assert (Hinv : rows_inv (sort_by Z.ltb fst (fill_rows words)) words).
  { eapply rows_inv_perm; [symmetry; exact HP | apply fill_rows_inv]. }
  split; [exact Hinv|].
  apply StronglySorted_map_fst; [|apply Hinv].
  apply (sort_by_sorted Z.ltb fst Zltb_asym Zltb_ge_trans).
Qed.


Lemma group_rows_concat (words : list Detection) :
  Permutation (concat (map snd (group_rows words))) words.
Proof.
  unfold group_rows. rewrite map_map. cbn [snd].
  set (W := sort_by key_lt word_key words).
  destruct (sorted_rows_inv W) as [(_ & _ & HC) _].
  transitivity W; [|apply sort_by_perm].
  etransitivity; [|exact HC]. clear HC.
  induction (sort_by Z.ltb fst (fill_rows W)) as [|kv l IH]; simpl;
    [reflexivity|].
  apply Permutation_app; [apply sort_by_perm | exact IH].
Qed.



Lemma group_rows_rows (words : list Detection) :
  Forall (fun kv : Z * list Detection =>
            snd kv <> []
            /\ Forall (fun w => In w words /\ row_of w = fst kv) (snd kv)
            /\ StronglySorted left_le (snd kv))
         (group_rows words).
Proof.
  unfold group_rows. set (W := sort_by key_lt word_key words).
  destruct (sorted_rows_inv W) as [(_ & HF & _) _].
  apply List.Forall_forall. intros kv' Hkv'.
  apply in_map_iff in Hkv' as (kv & <- & Hkv). cbn [fst snd].
  rewrite List.Forall_forall in HF. destruct (HF _ Hkv) as [El Hne].
  pose proof (sort_by_perm Num.ltb (fun w => Left (Geometry w)) (snd kv))
    as HP. fold (sort_left (snd kv)) in HP.
  split; [|split].
  - intros E. rewrite E in HP. apply Permutation_nil in HP. contradiction.
  - apply List.Forall_forall. intros w Hw.
    apply (Permutation_in _ HP) in Hw. rewrite El in Hw.
    apply List.filter_In in Hw as [Hw Hr]. apply Z.eqb_eq in Hr.
    split; [|exact Hr].
    eapply Permutation_in; [apply (sort_by_perm key_lt word_key) | exact Hw].
  - eapply StronglySorted_impl;
      [|apply (sort_by_sorted Num.ltb (fun w => Left (Geometry w))
                 ltb_asym ltb_ge_trans)].
    intros a b _ _ H. now apply ltb_ge.
Qed.

(** Outside the normalised range [int] and [floor] part ways: a word whose
    centre lies above the image is put in row 0, not row -1. *)
Example row_of_above_image :
  let w := mkDetection (Some "WORD"%string) "x" 90
             (mkBox 0 (- (1 # 100)) (1 # 10) 0) in
  row_of w = 0%Z /\ bucket w = (-1)%Z.
Proof. split; reflexivity. Qed.



(** ** Order of the input *)










(** ** Effect of grouping on its argument *)

(** C10 (as stated) fails: [group] re-orders the list it is given. *)
Lemma group_reorders_argument :
  let hello := word "Hello" 80 0 (10 # 100) in
  let third := word "Third" 70 0 (50 # 100) in
  fst (_group_words_into_lines [third; hello]) = [hello; third]
  /\ fst (_group_words_into_lines [third; hello]) <> [third; hello].
Proof.
  cbv zeta. split; [reflexivity|]. intros H. vm_compute in H. discriminate H.
Qed.

(** C10 (amended): [iou] and [deduplicate] are functions of their arguments
    and write to none of them.  [group] sorts the list of word detections it
    is passed in place, by [(round(100 * center_y), left)]: when the call
    ends that list holds the same word detections, each unchanged, in sorted
    order, and it is unchanged exactly when it was sorted already; the
    returned lines depend on the argument alone, and calling [group] again
    on the re-ordered list changes nothing and returns the same lines. *)
Theorem group_sorts_argument_in_place (words : list Detection) :
  let words' := fst (_group_words_into_lines words) in
  Permutation words' words
  /\ StronglySorted key_le words'
  /\ (StronglySorted key_le words <-> words' = words)
  /\ _group_words_into_lines words' = _group_words_into_lines words.
Proof.
  cbv zeta. rewrite group_fst.
  pose proof (sort_by_sorted key_lt word_key key_lt_asym key_lt_ge_trans words)
    as HS.
  pose proof (sort_by_fixed key_lt word_key _ HS) as Hfix.
  split; [apply sort_by_perm|]. split; [exact HS|]. split.
  - split.
    + apply (sort_by_fixed key_lt word_key).
    + intros E. rewrite <- E. exact HS.
  - rewrite (surjective_pairing
               (_group_words_into_lines (sort_by key_lt word_key words))).
    rewrite (surjective_pairing (_group_words_into_lines words)).
    rewrite !group_fst, !group_snd. unfold group_rows.
    now rewrite Hfix.
Qed.

Lemma group_sorts_argument_in_place_witness :
  let hello := word "Hello" 80 0 (10 # 100) in
  let third := word "Third" 70 0 (50 # 100) in
  fst (_group_words_into_lines [hello; third]) = [hello; third].
Proof.
  cbv zeta.
  apply (proj1 (proj2 (proj2 (group_sorts_argument_in_place
                                [word "Hello" 80 0 (10 # 100);
                                 word "Third" 70 0 (50 # 100)])))).
  repeat constructor.
Defined.

(** * Further properties *)

(** ** Text detection as a whole *)

Lemma group_rows_nonempty (words : list Detection) :
  words <> [] -> group_rows words <> [].
Proof.
  intros Hne E. pose proof (group_rows_concat words) as HP.
  rewrite E in HP. simpl in HP. apply Permutation_nil in HP. congruence.
Qed.

(** Grouping returns lines for every list of words, one per row, each
    describing its row. *)
Lemma group_returns (words : list Detection) :
  exists lines,
    snd (_group_words_into_lines words) = Some lines
    /\ Forall2 (fun kv line => describes (snd kv) line)
               (group_rows words) lines.
Proof.
  rewrite group_snd. apply traverse_Forall2.
  eapply List.Forall_impl; [|apply group_rows_rows].
  intros kv (Hkv & _ & _). now apply line_of_row_describes.
Qed.

Lemma uniq_step_grows (acc : list UniqLine) (l : Detection) :
  uniq_step acc l = acc \/ uniq_step acc l = acc ++ [uniq_entry l].
Proof.
  unfold uniq_step.
  destruct (existsb (is_dup (_norm_text (DetectedText l)) (Geometry l)) acc);
    [now left | now right].
Qed.


Lemma uniq_fold_keeps (lines : list Detection) (acc : list UniqLine) :
  acc <> [] -> fold_left uniq_step lines acc <> [].
Proof.
  revert acc. induction lines as [|l lines IH]; intros acc Ha; simpl.
  - exact Ha.
  - apply IH. destruct (uniq_step_grows acc l) as [-> | ->]; [exact Ha|].
    intros E. now apply app_eq_nil in E as [E _].
Qed.

Lemma uniq_loop_nonempty (lines : list Detection) :
  lines <> [] -> uniq_loop lines <> [].
Proof.
  destruct lines as [|l lines]; [congruence|]. intros _.
  unfold uniq_loop. simpl. apply uniq_fold_keeps.
  unfold uniq_step. simpl. discriminate.
Qed.








(** X2: the list returned is empty exactly when no LINE and no WORD of the
    response reaches the threshold. *)
Theorem detect_text_lines_empty_iff (dets : list Detection) (m : Q) :
  _detect_text_lines_by_s3 dets m = Some []
  <-> select "LINE" dets m = [] /\ select "WORD" dets m = [].
Proof.
  unfold _detect_text_lines_by_s3.
  destruct (select "LINE" dets m) as [|l ls] eqn:EL.
  - destruct (group_returns (select "WORD" dets m)) as (lines & Hl & HF2).
    rewrite Hl. split.
    + intros H. split; [reflexivity|]. injection H as H.
      destruct (select "WORD" dets m) as [|w ws] eqn:EW; [reflexivity|].
      exfalso. revert H. apply uniq_loop_nonempty.
      assert (Hr : group_rows (w :: ws) <> [])
        by (apply group_rows_nonempty; discriminate).
      intros E. unfold built_of in E. apply map_eq_nil in E. subst lines.
      inversion HF2 as [E0|]. congruence.
    + intros [_ EW]. rewrite EW in Hl. simpl in Hl. injection Hl as <-.
      reflexivity.
  - split.
    + intros H. injection H as H. exfalso. revert H.
      apply uniq_loop_nonempty. discriminate.
    + intros [H _]. discriminate H.
Qed.

Lemma select_filter_type (t : string) (dets : list Detection) (m : Q) :
  select t (List.filter (has_type t) dets) m = select t dets m.
Proof.
  unfold select. induction dets as [|d dets IH]; simpl; [reflexivity|].
  destruct (has_type t d) eqn:E; simpl; rewrite ?E; simpl; now rewrite IH.
Qed.

(** X3: line-level detections take precedence: as soon as one LINE of the
    response reaches the threshold, the result is that of the response with
    every other detection removed, so WORD detections play no part. *)
Theorem detect_text_lines_prefers_lines (dets : list Detection) (m : Q) :
  select "LINE" dets m <> [] ->
  _detect_text_lines_by_s3 dets m
  = _detect_text_lines_by_s3 (List.filter (has_type "LINE") dets) m.
Proof.
  intros H. unfold _detect_text_lines_by_s3.
  rewrite select_filter_type.
  destruct (select "LINE" dets m); [congruence | reflexivity].
Qed.

Lemma detect_text_lines_prefers_lines_witness :
  let line := mkDetection (Some "LINE"%string) "Total" 90 unit_box in
  let w1 := word "Grand" 99 0 (50 # 100) in
  _detect_text_lines_by_s3 [w1; line; w1] 80
  = _detect_text_lines_by_s3 [line] 80.
Proof.
  cbv zeta.
  apply (detect_text_lines_prefers_lines
           [word "Grand" 99 0 (50 # 100);
            mkDetection (Some "LINE"%string) "Total" 90 unit_box;
            word "Grand" 99 0 (50 # 100)] 80).
  discriminate.
Defined.




(** ** Geometry *)



(** ** Text normalisation *)

Lemma is_space_lower (c : ascii) : is_space (lower_char c) = is_space c.
Proof. destruct c as [[] [] [] [] [] [] [] []]; reflexivity. Qed.

Lemma is_space_upper (c : ascii) : is_space (upper_char c) = is_space c.
Proof. destruct c as [[] [] [] [] [] [] [] []]; reflexivity. Qed.

Lemma lower_lower (c : ascii) : lower_char (lower_char c) = lower_char c.
Proof. destruct c as [[] [] [] [] [] [] [] []]; reflexivity. Qed.

Lemma lower_upper (c : ascii) : lower_char (upper_char c) = lower_char c.
Proof. destruct c as [[] [] [] [] [] [] [] []]; reflexivity. Qed.

Lemma eqb_space_lower (c : ascii) :
  Ascii.eqb (lower_char c) " " = Ascii.eqb c " ".
Proof. destruct c as [[] [] [] [] [] [] [] []]; reflexivity. Qed.

Lemma sub_ws_collapsed (l : list ascii) (b : bool) :
  collapsed (sub_ws b l) = true
  /\ (b = true -> head_not_space (sub_ws b l) = true).
Proof.
  revert b. induction l as [|c l IH]; intros b; simpl.
  - split; reflexivity.
  - destruct (is_space c) eqn:E.
    + destruct b.
      * apply IH.
      * destruct (IH true) as [H1 H2]. split; [|discriminate].
        simpl. rewrite H1, andb_true_r.
        specialize (H2 eq_refl). unfold head_not_space in H2.
        destruct (sub_ws true l); [reflexivity | exact H2].
    + destruct (IH false) as [H1 _]. split.
      * simpl. now rewrite E, H1.
      * intros _. simpl. now rewrite E.
Qed.

Lemma sub_ws_fixed (l : list ascii) :
  collapsed l = true ->
  forall b, (b = true -> head_not_space l = true) -> sub_ws b l = l.
Proof.
  induction l as [|c l IH]; intros Hc b Hb; simpl; [reflexivity|].
  simpl in Hc. apply andb_true_iff in Hc as [Hc1 Hc2].
  destruct (is_space c) eqn:E.
  - destruct b.
    + specialize (Hb eq_refl). simpl in Hb. rewrite E in Hb. discriminate.
    + apply andb_true_iff in Hc1 as [Hs Hn].
      apply Ascii.eqb_eq in Hs. subst c. f_equal.
      apply IH; [exact Hc2|]. intros _. exact Hn.
  - f_equal. apply IH; [exact Hc2 | discriminate].
Qed.

Lemma lstrip_head (l : list ascii) : head_not_space (lstrip l) = true.
Proof.
  induction l as [|c l IH]; simpl; [reflexivity|].
  destruct (is_space c) eqn:E; [exact IH|]. simpl. now rewrite E.
Qed.

Lemma lstrip_suffix (l : list ascii) : exists p, l = p ++ lstrip l.
Proof.
  induction l as [|c l [p IH]]; simpl.
  - now exists [].
  - destruct (is_space c); [|now exists []].
    exists (c :: p). simpl. now rewrite <- IH.
Qed.

Lemma lstrip_fixed (l : list ascii) :
  head_not_space l = true -> lstrip l = l.
Proof.
  destruct l as [|c l]; simpl; [reflexivity|].
  intros H. apply negb_true_iff in H. now rewrite H.
Qed.

Lemma collapsed_tail (p q : list ascii) :
  collapsed (p ++ q) = true -> collapsed q = true.
Proof.
  induction p as [|c p IH]; simpl; [trivial|].
  intros H. apply andb_true_iff in H as [_ H]. now apply IH.
Qed.

Lemma collapsed_front (p q : list ascii) :
  collapsed (p ++ q) = true -> collapsed p = true.
Proof.
  induction p as [|c p IH]; simpl; [reflexivity|].
  intros H. apply andb_true_iff in H as [H1 H2].
  rewrite (IH H2), andb_true_r.
  destruct (is_space c); [|reflexivity].
  apply andb_true_iff in H1 as [Hs Hn]. rewrite Hs. simpl.
  destruct p; [reflexivity | exact Hn].
Qed.

Lemma lstrip_snoc (p : list ascii) (c : ascii) :
  is_space c = false -> exists p', lstrip (p ++ [c]) = p' ++ [c].
Proof.
  intros E. induction p as [|a p [p' IH]]; simpl.
  - rewrite E. now exists [].
  - destruct (is_space a); [now exists p'|]. now exists (a :: p).
Qed.

(** What [strip] returns neither starts nor ends with whitespace, and it
    keeps a collapsed text collapsed. *)
Lemma strip_ends (l : list ascii) :
  head_not_space (strip l) = true /\ head_not_space (rev (strip l)) = true.
Proof.
  unfold strip. rewrite rev_involutive. split; [|apply lstrip_head].
  pose proof (lstrip_head l) as H.
  destruct (lstrip l) as [|c y]; [reflexivity|].
  simpl in H. apply negb_true_iff in H.
  simpl rev. destruct (lstrip_snoc (rev y) c H) as [p' ->].
  rewrite rev_app_distr. simpl. now rewrite H.
Qed.

Lemma strip_collapsed (l : list ascii) :
  collapsed l = true -> collapsed (strip l) = true.
Proof.
  intros H. unfold strip.
  destruct (lstrip_suffix l) as [p Hp].
  assert (H1 : collapsed (lstrip l) = true)
    by (rewrite Hp in H; now apply collapsed_tail in H).
  destruct (lstrip_suffix (rev (lstrip l))) as [q Hq].
  assert (Hy : lstrip l = rev (lstrip (rev (lstrip l))) ++ rev q).
  { rewrite <- rev_app_distr, <- Hq. now rewrite rev_involutive. }
  rewrite Hy in H1. now apply collapsed_front in H1.
Qed.

Lemma strip_fixed (l : list ascii) :
  head_not_space l = true -> head_not_space (rev l) = true -> strip l = l.
Proof.
  intros H1 H2. unfold strip.
  rewrite (lstrip_fixed l H1), (lstrip_fixed _ H2). apply rev_involutive.
Qed.

Lemma collapsed_lower (l : list ascii) :
  collapsed (map lower_char l) = collapsed l.
Proof.
  induction l as [|c l IH]; simpl; [reflexivity|].
  rewrite IH, is_space_lower, eqb_space_lower.
  destruct l as [|d l]; simpl; [reflexivity|]. now rewrite is_space_lower.
Qed.

Lemma head_not_space_lower (l : list ascii) :
  head_not_space (map lower_char l) = head_not_space l.
Proof. destruct l; simpl; [reflexivity|]. now rewrite is_space_lower. Qed.

(** The normal form of a text, as a list of characters. *)
Lemma norm_text_chars (s : string) :
  list_ascii_of_string (_norm_text s)
  = map lower_char (strip (sub_ws false (list_ascii_of_string s))).
Proof. unfold _norm_text. apply list_ascii_of_string_of_list_ascii. Qed.

Lemma norm_text_shape (s : string) :
  let t := list_ascii_of_string (_norm_text s) in
  head_not_space t = true
  /\ head_not_space (rev t) = true
  /\ collapsed t = true
  /\ Forall (fun c => lower_char c = c) t.
Proof.
  cbv zeta. rewrite norm_text_chars.
  set (x := strip (sub_ws false (list_ascii_of_string s))).
  destruct (strip_ends (sub_ws false (list_ascii_of_string s))) as [H1 H2].
  fold x in H1, H2.
  split; [now rewrite head_not_space_lower|].
  split; [now rewrite <- map_rev, head_not_space_lower|].
  split.
  - rewrite collapsed_lower. apply strip_collapsed.
    apply (sub_ws_collapsed _ false).
  - apply List.Forall_forall. intros c Hc.
    apply in_map_iff in Hc as (d & <- & _). apply lower_lower.
Qed.

(** X6: a normalised text has no leading or trailing whitespace, no
    whitespace other than single spaces between other characters, and no
    upper-case ASCII letter. *)
Theorem norm_text_canonical (s : string) :
  let t := list_ascii_of_string (_norm_text s) in
  head_not_space t = true
  /\ head_not_space (rev t) = true
  /\ collapsed t = true
  /\ Forall (fun c => lower_char c = c) t.
Proof. exact (norm_text_shape s). Qed.

(** Normalisation is idempotent. *)
Lemma norm_text_idempotent (s : string) :
  _norm_text (_norm_text s) = _norm_text s.
Proof.
  destruct (norm_text_shape s) as (H1 & H2 & H3 & H4). cbv zeta in *.
  unfold _norm_text at 1.
  set (t := list_ascii_of_string (_norm_text s)) in *.
  rewrite (sub_ws_fixed t H3 false) by discriminate.
  rewrite (strip_fixed t H1 H2).
  replace (map lower_char t) with t.
  - unfold t. apply string_of_list_ascii_of_string.
  - clear -H4. induction H4 as [|c l Hc _ IH]; simpl; [reflexivity|].
    now rewrite Hc, <- IH.
Qed.

Lemma sub_ws_upper (l : list ascii) (b : bool) :
  sub_ws b (map upper_char l) = map upper_char (sub_ws b l).
Proof.
  revert b. induction l as [|c l IH]; intros b; simpl; [reflexivity|].
  rewrite is_space_upper. destruct (is_space c).
  - destruct b; rewrite IH; reflexivity.
  - now rewrite IH.
Qed.

Lemma lstrip_upper (l : list ascii) :
  lstrip (map upper_char l) = map upper_char (lstrip l).
Proof.
  induction l as [|c l IH]; simpl; [reflexivity|].
  rewrite is_space_upper. now destruct (is_space c).
Qed.

Lemma strip_upper (l : list ascii) :
  strip (map upper_char l) = map upper_char (strip l).
Proof.
  unfold strip. now rewrite lstrip_upper, <- map_rev, lstrip_upper, map_rev.
Qed.

(** X7: normalisation ignores the case of ASCII letters: a text and its
    upper-case form have the same normal form. *)
Theorem norm_text_ignores_case (s : string) :
  _norm_text (upper s) = _norm_text s.
Proof.
  unfold _norm_text, upper. rewrite list_ascii_of_string_of_list_ascii.
  rewrite sub_ws_upper, strip_upper, map_map. f_equal.
  apply map_ext. apply lower_upper.
Qed.

Lemma list_ascii_of_string_app (a b : string) :
  list_ascii_of_string (a ++ b)
  = list_ascii_of_string a ++ list_ascii_of_string b.
Proof. induction a as [|c a IH]; simpl; [reflexivity | now rewrite IH]. Qed.

Lemma sub_ws_run (ws q : list ascii) (b : bool) :
  ws <> [] -> Forall (fun c => is_space c = true) ws ->
  sub_ws b (ws ++ q) = sub_ws b (" "%char :: q).
Proof.
  intros Hne HF. revert b.
  induction HF as [|c ws Hc HF IH]; [congruence|]. intros b.
  destruct ws as [|d ws].
  - simpl. now rewrite Hc.
  - change ((c :: d :: ws) ++ q) with (c :: (d :: ws) ++ q).
    cbn [sub_ws]. rewrite Hc.
    assert (Ht : sub_ws true ((d :: ws) ++ q) = sub_ws true q).
    { rewrite IH by discriminate. reflexivity. }
    destruct b; now rewrite Ht.
Qed.

(** X8: normalisation treats every run of whitespace as one space:
    replacing a non-empty run of whitespace characters anywhere in a text by
    a single space does not change the normal form. *)
Theorem norm_text_collapses_runs (a ws b : string) :
  ws <> ""%string ->
  Forall (fun c => is_space c = true) (list_ascii_of_string ws) ->
  _norm_text (a ++ ws ++ b) = _norm_text (a ++ " " ++ b).
Proof.
  intros Hne HF. unfold _norm_text. do 2 f_equal. f_equal.
  rewrite !list_ascii_of_string_app.
  assert (Hne' : list_ascii_of_string ws <> []).
  { destruct ws; [congruence | discriminate]. }
  set (p := list_ascii_of_string a). set (q := list_ascii_of_string b).
  assert (G : forall f, sub_ws f (p ++ list_ascii_of_string ws ++ q)
                        = sub_ws f (p ++ list_ascii_of_string " " ++ q)).
  { induction p as [|c p IH]; intros f.
    - simpl app. now apply sub_ws_run.
    - simpl. destruct (is_space c); [destruct f|]; now rewrite IH. }
  apply G.
Qed.

Lemma norm_text_collapses_runs_witness :
  _norm_text "total:   42" = _norm_text "total: 42".
Proof.
  apply (norm_text_collapses_runs "total:" "   " "42").
  - discriminate.
  - repeat constructor.
Defined.

(** ** Quota: further properties *)

Section QuotaFurther.
Local Open Scope Z_scope.

Lemma enforce_quota_grows (cfg : Config) (u' d' : string) (ttl : Z)
    (tbl : Table) (u d : string) :
  stored_count tbl u d
  <= stored_count (snd (enforce_quota cfg u' d' ttl tbl)) u d
  /\ (is_Some (tbl !! quota_key u d) ->
      is_Some (snd (enforce_quota cfg u' d' ttl tbl) !! quota_key u d)).
Proof.
  destruct (decide (quota_key u' d' = quota_key u d)) as [E|NE].
  - apply quota_key_inj in E as [-> ->].
    destruct (quota_active cfg) eqn:A.
    + rewrite (enforce_quota_active _ _ _ _ _ A).
      destruct (condition_holds _ _); simpl; [|split; [lia | trivial]].
      destruct (stored_count_insert tbl u d (stored_count tbl u d + 1) ttl)
        as [-> _].
      split; [lia|]. intros _. rewrite lookup_insert_eq. eauto.
    + rewrite (enforce_quota_inactive _ _ _ _ _ A). simpl.
      split; [lia | trivial].
  - pose proof (enforce_quota_frame cfg u' d' ttl tbl _ NE) as F.
    destruct (stored_count_frame _ _ _ _ F) as [-> _].
    rewrite F. split; [lia | trivial].
Qed.

(** X9: no sequence of attempts ever lowers a stored count or removes a
    record: counts only grow. *)
Theorem quota_counts_only_grow (cfg : Config) (attempts : list Attempt)
    (tbl : Table) (u d : string) :
  stored_count tbl u d <= stored_count (snd (run cfg attempts tbl)) u d
  /\ (is_Some (tbl !! quota_key u d) ->
      is_Some (snd (run cfg attempts tbl) !! quota_key u d)).
Proof.
  revert tbl. induction attempts as [|a rest IH]; intros tbl.
  - simpl. split; [lia | trivial].
  - rewrite run_cons. cbn [snd].
    destruct (enforce_quota_grows cfg (a_user a) (a_day a) (a_ttl a) tbl u d)
      as [H1 H2].
    destruct (IH (snd (enforce_quota cfg (a_user a) (a_day a) (a_ttl a) tbl)))
      as [H3 H4].
    split; [lia | auto].
Qed.

(** X10: attempts made for other callers or other days never touch the
    record of a (subject, day) key: a sequence without an attempt on that
    key leaves its item exactly as it was. *)
Theorem quota_keys_are_isolated (cfg : Config) (attempts : list Attempt)
    (tbl : Table) (u d : string) :
  attempts_on u d attempts = 0%nat ->
  snd (run cfg attempts tbl) !! quota_key u d = tbl !! quota_key u d.
Proof.
  revert tbl. induction attempts as [|a rest IH]; intros tbl Hn.
  - reflexivity.
  - rewrite attempts_on_cons in Hn.
    destruct (on_key u d a) eqn:K; [discriminate|].
    rewrite run_cons. cbn [snd]. rewrite (IH _ Hn).
    apply enforce_quota_frame. now apply on_key_false.
Qed.

Lemma quota_keys_are_isolated_witness :
  let cfg := mkConfig true (Some "quota"%string) 1 in
  snd (run cfg [mkAttempt "v" "d" 5; mkAttempt "u" "e" 6; mkAttempt "v" "d" 5]
           tbl_three) !! quota_key "u" "d"
  = tbl_three !! quota_key "u" "d".
Proof.
  cbv zeta.
  apply (quota_keys_are_isolated
           (mkConfig true (Some "quota"%string) 1)
           [mkAttempt "v" "d" 5; mkAttempt "u" "e" 6; mkAttempt "v" "d" 5]
           tbl_three "u" "d").
  reflexivity.
Defined.

(** X11: from any stored count, with enforcement active: when the record
    holds a count [c] (or has none and the limit is at least 1), of [n]
    attempts on the key, however interleaved with others, exactly
    [min(n, room)] succeed, where [room = max(0, limit - c)], the others
    fail with the 429 outcome, and the count ends at [c + min(n, room)]. *)
Theorem quota_room (cfg : Config) (u d : string) (attempts : list Attempt)
    (tbl : Table) :
  quota_active cfg = true ->
  has_count tbl u d = true \/ 0 < QUOTA_LIMIT cfg ->
  let c := stored_count tbl u d in
  let n := attempts_on u d attempts in
  let room := Z.to_nat (QUOTA_LIMIT cfg - c) in
  let outs := outcomes_on u d attempts (fst (run cfg attempts tbl)) in
  length (List.filter is_success outs) = Nat.min n room
  /\ length (List.filter is_quota_exceeded outs) = (n - room)%nat
  /\ stored_count (snd (run cfg attempts tbl)) u d
     = c + Z.of_nat (Nat.min n room).
Proof.
  intros Hact Hc. cbv zeta.
  destruct (run_on_key cfg u d attempts Hact tbl Hc) as [Ho Hs].
  cbv zeta in Ho, Hs. rewrite Ho.
  rewrite filter_success_outcomes, filter_exceeded_outcomes.
  rewrite length_map, length_seq, repeat_length. auto.
Qed.

Lemma quota_room_witness :
  let cfg := mkConfig true (Some "quota"%string) 5 in
  let attempts := [mkAttempt "u" "d" 5; mkAttempt "v" "d" 5;
                   mkAttempt "u" "d" 5; mkAttempt "u" "d" 5] in
  let outs := outcomes_on "u" "d" attempts (fst (run cfg attempts tbl_three)) in
  length (List.filter is_success outs) = 2%nat
  /\ length (List.filter is_quota_exceeded outs) = 1%nat
  /\ stored_count (snd (run cfg attempts tbl_three)) "u" "d" = 5.
Proof.
  cbv zeta.
  exact (quota_room (mkConfig true (Some "quota"%string) 5) "u" "d"
           [mkAttempt "u" "d" 5; mkAttempt "v" "d" 5;
            mkAttempt "u" "d" 5; mkAttempt "u" "d" 5]
           tbl_three eq_refl (or_introl eq_refl)).
Defined.

End QuotaFurther.

(** ** The expiry instant *)

Lemma next_midnight_closed (now : DateTime) :
  _next_midnight_epoch_utc now = ((ordinal now - 719163 + 1) * 86400)%Z.
Proof.
  unfold _next_midnight_epoch_utc, timestamp, replace_midnight, add_days,
    Num.int.
  cbn [ordinal hour minute second microsecond].
  set (z := ((ordinal now + 1 - 719163) * 86400 + 0 * 3600 + 0 * 60 + 0)%Z).
  change (inject_Z 0 / 1000000) with (0 # 1000000).
  unfold inject_Z, Qplus. cbn [Qnum Qden].
  rewrite Z.mul_0_l, Z.add_0_r.
  change (Z.pos (1 * 1000000)) with 1000000%Z.
  rewrite Z.quot_mul by discriminate. unfold z. lia.
Qed.

(** X12: the expiry that [_next_midnight_epoch_utc] computes is the first
    UTC midnight after the clock reading: it is the epoch second at which
    the next day starts, a multiple of 86400, strictly later than now and at
    most 24 hours away; all readings of one day give the same expiry. *)
Theorem next_midnight_is_next_day_start (now : DateTime) :
  valid_time now ->
  let t := _next_midnight_epoch_utc now in
  t = ((ordinal now - 719163 + 1) * 86400)%Z
  /\ (t mod 86400 = 0)%Z
  /\ timestamp now < inject_Z t
  /\ inject_Z t <= timestamp now + 86400
  /\ (forall other : DateTime,
        ordinal other = ordinal now -> _next_midnight_epoch_utc other = t).
Proof.
  intros (Hh & Hm & Hs & Hu). cbv zeta. rewrite next_midnight_closed.
  split; [reflexivity|]. split; [apply Z.mod_mul; discriminate|].
  assert (Hfrac : 0 <= inject_Z (microsecond now) / 1000000
                  /\ inject_Z (microsecond now) / 1000000 < 1).
  { split.
    - apply Qle_shift_div_l; [reflexivity|].
      change (0 * 1000000) with (inject_Z 0). rewrite <- Zle_Qle. lia.
    - apply Qlt_shift_div_r; [reflexivity|].
      change (1 * 1000000) with (inject_Z 1000000). rewrite <- Zlt_Qlt. lia. }
  unfold timestamp.
  set (T := ((ordinal now - 719163) * 86400 + hour now * 3600
             + minute now * 60 + second now)%Z).
  assert (HT : ((ordinal now - 719163) * 86400 <= T
                /\ T + 1 <= (ordinal now - 719163 + 1) * 86400)%Z)
    by (unfold T; lia).
  destruct HT as [HT1 HT2].
  rewrite Zle_Qle in HT1, HT2. rewrite inject_Z_plus in HT2.
  change (inject_Z 1) with 1 in HT2.
  replace ((ordinal now - 719163 + 1) * 86400)%Z
    with ((ordinal now - 719163) * 86400 + 86400)%Z in * by lia.
  rewrite inject_Z_plus in *. change (inject_Z 86400) with 86400 in *.
  split; [lra|]. split; [lra|].
  intros other Ho. rewrite next_midnight_closed, Ho. lia.
Qed.

Lemma next_midnight_is_next_day_start_witness :
  _next_midnight_epoch_utc (mkDateTime 719164 23 59 59 999999) = 172800%Z
  /\ timestamp (mkDateTime 719164 23 59 59 999999) < inject_Z 172800.
Proof.
  pose proof (next_midnight_is_next_day_start
                (mkDateTime 719164 23 59 59 999999)) as H.
  cbv zeta in H. destruct H as (H1 & _ & H3 & _).
  - repeat split; intros E; discriminate E.
  - split; [exact H1 | exact H3].
Defined.

(** ** Identity of the caller *)

Lemma truthy_nonempty (a : option string) (s : string) :
  truthy a = Some s -> a = Some s /\ s <> ""%string.
Proof.
  destruct a as [x|]; simpl; [|discriminate].
  destruct (String.eqb_spec x ""); [discriminate|].
  intros H. injection H as <-. auto.
Qed.

Lemma truthy_none (a : option string) :
  truthy a = None -> a = None \/ a = Some ""%string.
Proof.
  destruct a as [x|]; simpl; [|now left].
  destruct (String.eqb_spec x ""); [subst; now right | discriminate].
Qed.

Lemma py_or_truthy (a : option string) (b s : string) :
  a = Some s -> s <> ""%string -> py_or a b = s.
Proof.
  intros -> Hs. unfold py_or. simpl.
  destruct (String.eqb_spec s ""); [contradiction | reflexivity].
Qed.

(** X13: the client identifier is never empty: it is a non-empty
    [x-client-id] header or starts with ["ip:"], so every request is
    counted under some subject. *)
Theorem client_id_never_empty (event : Event) :
  _client_id event <> ""%string
  /\ (_headers_lower event !! "x-client-id"%string = Some (_client_id event)
      \/ _client_id event = ("ip:" ++ _source_ip event)%string).
Proof.
  unfold _client_id, py_or.
  destruct (truthy (_headers_lower event !! "x-client-id"%string))
    as [s|] eqn:E.
  - apply truthy_nonempty in E as [E Hs]. split; [exact Hs | now left].
  - split; [discriminate | now right].
Qed.

Lemma headers_lower_fold (items : list (string * string))
    (m : gmap string string) (k : string) (v : string) :
  (exists pre post key,
      items = pre ++ (key, v) :: post
      /\ lower key = k
      /\ Forall (fun kv => lower (fst kv) <> k) post) ->
  fold_left (fun m kv => <[lower (fst kv) := snd kv]> m) items m !! k = Some v.
Proof.
  intros (pre & post & key & -> & Hk & Hpost).
  rewrite fold_left_app. simpl. rewrite Hk.
  generalize (fold_left (fun m kv => <[lower (fst kv) := snd kv]> m) pre m).
  intros m0.
  assert (G : forall m1 : gmap string string,
             m1 !! k = Some v ->
             fold_left (fun m kv => <[lower (fst kv) := snd kv]> m) post m1 !! k
             = Some v).
  { induction Hpost as [|kv post Hkv _ IH]; intros m1 H1; simpl; [exact H1|].
    apply IH. now rewrite lookup_insert_ne. }
  apply G. apply lookup_insert_eq.
Qed.

(** X14: the [x-client-id] header is found whatever the case of its name,
    and the last header with that name wins: if a header whose lower-cased
    name is [x-client-id] carries a non-empty value and no later header has
    that name, the client identifier is that value, whatever the source
    address. *)
Theorem client_id_header_any_case (event : Event)
    (pre post : list (string * string)) (key v : string) :
  headers event = Some (pre ++ (key, v) :: post) ->
  lower key = "x-client-id"%string ->
  Forall (fun kv => lower (fst kv) <> "x-client-id"%string) post ->
  v <> ""%string ->
  _client_id event = v.
Proof.
  intros Hh Hk Hpost Hv. unfold _client_id. apply py_or_truthy; [|exact Hv].
  unfold _headers_lower. rewrite Hh. simpl.
  apply headers_lower_fold. exists pre, post, key. auto.
Qed.

Lemma client_id_header_any_case_witness :
  _client_id
    (mkEvent None None None None None false
       (Some [("x-client-id"%string, "old"%string);
              ("X-Client-ID"%string, "alice"%string);
              ("accept"%string, "*/*"%string)])
       (Some "10.0.0.1"%string) None None None)
  = "alice"%string.
Proof.
  apply (client_id_header_any_case _
           [("x-client-id"%string, "old"%string)]
           [("accept"%string, "*/*"%string)] "X-Client-ID" "alice").
  - reflexivity.
  - reflexivity.
  - repeat constructor. intros H. discriminate H.
  - intros H. discriminate H.
Defined.

Lemma first_field_no_comma (l : list ascii) :
  ~ In ","%char (first_field l).
Proof.
  induction l as [|c l IH]; simpl; [tauto|].
  destruct (Ascii.eqb_spec c ","); simpl; [tauto|].
  intros [H|H]; [congruence | contradiction].
Qed.

Lemma lstrip_In (l : list ascii) (c : ascii) : In c (lstrip l) -> In c l.
Proof.
  destruct (lstrip_suffix l) as [p Hp]. intros H. rewrite Hp.
  apply in_or_app. now right.
Qed.

Lemma strip_In (l : list ascii) (c : ascii) : In c (strip l) -> In c l.
Proof.
  unfold strip. intros H. apply in_rev in H. apply lstrip_In in H.
  apply in_rev in H. now apply lstrip_In.
Qed.

(** X15: when the event carries no source address, the address is taken
    from [x-forwarded-for] (the header as spelt in lower case): it is the
    first entry of that list with surrounding whitespace removed, so it
    holds no comma and neither starts nor ends with whitespace; without the
    header, or with an empty one, it is ["0.0.0.0"]. *)
Theorem source_ip_fallback (event : Event) :
  rc_http_sourceIp event = None ->
  let fwd := dict_of (default [] (headers event)) !! "x-forwarded-for"%string in
  let ip := list_ascii_of_string (_source_ip event) in
  ~ In ","%char ip
  /\ head_not_space ip = true
  /\ head_not_space (rev ip) = true
  /\ (fwd = None \/ fwd = Some ""%string ->
      _source_ip event = "0.0.0.0"%string).
Proof.
  intros Hs. cbv zeta. unfold _source_ip. rewrite Hs.
  rewrite list_ascii_of_string_of_list_ascii.
  split; [|split; [|split]].
  - intros H. apply strip_In in H. now apply first_field_no_comma in H.
  - apply strip_ends.
  - apply strip_ends.
  - intros [-> | ->]; reflexivity.
Qed.

Lemma source_ip_fallback_witness :
  _source_ip
    (mkEvent None None None None None false
       (Some [("x-forwarded-for"%string, " 9.9.9.9 , 5.6.7.8"%string)])
       None None None None)
  = "9.9.9.9"%string
  /\ _source_ip
       (mkEvent None None None None None false None None None None None)
     = "0.0.0.0"%string.
Proof.
  split; [reflexivity|].
  apply (source_ip_fallback
           (mkEvent None None None None None false None None None None None)
           eq_refl).
  now left.
Defined.

(** ** Account of the caller *)

Lemma strip_prefix_app (p s r : list ascii) :
  strip_prefix p s = Some r <-> s = p ++ r.
Proof.
  revert s. induction p as [|a p IH]; intros s; simpl.
  - split; [intros H; now injection H | intros ->; reflexivity].
  - destruct s as [|b s]; [split; discriminate|].
    destruct (Ascii.eqb_spec a b) as [->|NE].
    + rewrite IH. split; [intros ->; reflexivity | intros H; now injection H].
    + split; [discriminate | intros H; injection H; congruence].
Qed.

Lemma take_digits_sound (n : nat) (s ds r : list ascii) :
  take_digits n s = Some (ds, r) ->
  s = ds ++ r /\ length ds = n /\ Forall (fun c => is_digit c = true) ds.
Proof.
  revert s ds r. induction n as [|n IH]; intros s ds r; simpl.
  - intros H. injection H as <- <-. repeat split. constructor.
  - destruct s as [|c s]; [discriminate|].
    destruct (is_digit c) eqn:D; [|discriminate].
    destruct (take_digits n s) as [[ds' r']|] eqn:T; [|discriminate].
    intros H. injection H as <- <-.
    apply IH in T as (-> & Hl & HF). simpl.
    split; [reflexivity|]. split; [now rewrite Hl | now constructor].
Qed.

Lemma take_digits_complete (ds r : list ascii) :
  Forall (fun c => is_digit c = true) ds ->
  take_digits (length ds) (ds ++ r) = Some (ds, r).
Proof.
  induction 1 as [|c ds Hc _ IH]; simpl; [reflexivity|].
  now rewrite Hc, IH.
Qed.

(** The shape the pattern asks for: the prefix, a service, two colons, the
    account digits and a colon. *)
Lemma arn_match_here_spec (s acc : list ascii) :
  arn_match_here s = Some acc
  <-> exists svc post,
        (svc = list_ascii_of_string "iam" \/ svc = list_ascii_of_string "sts")
        /\ s = list_ascii_of_string "arn:aws:" ++ svc
               ++ list_ascii_of_string "::" ++ acc ++ ":"%char :: post
        /\ length acc = 12%nat
        /\ Forall (fun c => is_digit c = true) acc.
Proof.
  unfold arn_match_here. split.
  - destruct (strip_prefix (list_ascii_of_string "arn:aws:") s)
      as [s1|] eqn:E1; [|discriminate].
    apply strip_prefix_app in E1. subst s.
    assert (Hsvc : forall s2,
              match strip_prefix (list_ascii_of_string "iam") s1 with
              | Some s2 => Some s2
              | None => strip_prefix (list_ascii_of_string "sts") s1
              end = Some s2 ->
              exists svc,
                (svc = list_ascii_of_string "iam"
                 \/ svc = list_ascii_of_string "sts")
                /\ s1 = svc ++ s2).
    { intros s2.
      destruct (strip_prefix (list_ascii_of_string "iam") s1) as [x|] eqn:Ei.
      - intros H. injection H as ->. apply strip_prefix_app in Ei.
        exists (list_ascii_of_string "iam"). auto.
      - intros H. apply strip_prefix_app in H.
        exists (list_ascii_of_string "sts"). auto. }
    destruct (match strip_prefix (list_ascii_of_string "iam") s1 with
              | Some s2 => Some s2
              | None => strip_prefix (list_ascii_of_string "sts") s1
              end) as [s2|]; [|discriminate].
    destruct (Hsvc s2 eq_refl) as (svc & Hs & ->).
    destruct (strip_prefix (list_ascii_of_string "::") s2) as [s3|] eqn:E3;
      [|discriminate].
    apply strip_prefix_app in E3. subst s2.
    destruct (take_digits 12 s3) as [[ds s4]|] eqn:E4; [|discriminate].
    apply take_digits_sound in E4 as (-> & Hl & HF).
    destruct s4 as [|c s4]; [discriminate|].
    destruct (Ascii.eqb_spec c ":"); [|discriminate].
    intros H. injection H as <-. subst c.
    exists svc, s4. auto.
  - intros (svc & post & Hs & -> & Hl & HF).
    assert (E1 : strip_prefix (list_ascii_of_string "arn:aws:")
                   (list_ascii_of_string "arn:aws:" ++ svc
                    ++ list_ascii_of_string "::" ++ acc ++ ":"%char :: post)
                 = Some (svc ++ list_ascii_of_string "::" ++ acc
                         ++ ":"%char :: post))
      by now apply strip_prefix_app.
    rewrite E1.
    assert (E4 : take_digits 12 (acc ++ ":"%char :: post)
                 = Some (acc, ":"%char :: post))
      by (rewrite <- Hl; now apply take_digits_complete).
    destruct Hs as [-> | ->]; cbn -[take_digits]; rewrite E4; reflexivity.
Qed.

Lemma arn_search_sound (s acc : list ascii) :
  arn_search s = Some acc ->
  exists pre, exists s', s = pre ++ s' /\ arn_match_here s' = Some acc.
Proof.
  induction s as [|c s IH].
  - simpl. discriminate.
  - cbn [arn_search].
    destruct (arn_match_here (c :: s)) as [a|] eqn:E.
    + intros H. injection H as ->. exists [], (c :: s). auto.
    + intros H. destruct (IH H) as (pre & s' & -> & Hm).
      exists (c :: pre), s'. auto.
Qed.

Lemma arn_search_complete (pre s' : list ascii) :
  is_Some (arn_match_here s') -> is_Some (arn_search (pre ++ s')).
Proof.
  intros [acc Hm]. induction pre as [|c pre IH]; simpl app.
  - destruct s' as [|c s']; [simpl in Hm; discriminate|].
    cbn [arn_search]. rewrite Hm. eauto.
  - cbn [arn_search]. destruct (arn_match_here (c :: pre ++ s')); eauto.
Qed.

Lemma string_of_list_ascii_app (a b : list ascii) :
  string_of_list_ascii (a ++ b)
  = (string_of_list_ascii a ++ string_of_list_ascii b)%string.
Proof. induction a as [|c a IH]; simpl; [reflexivity | now rewrite IH]. Qed.

Lemma length_list_ascii_of_string (s : string) :
  length (list_ascii_of_string s) = String.length s.
Proof. induction s as [|c s IH]; simpl; [reflexivity | now rewrite IH]. Qed.

Lemma svc_string (svc : list ascii) :
  svc = list_ascii_of_string "iam" \/ svc = list_ascii_of_string "sts" ->
  string_of_list_ascii svc = "iam"%string
  \/ string_of_list_ascii svc = "sts"%string.
Proof. intros [-> | ->]; [now left | now right]. Qed.

Lemma arn_account_shape (arn acc : string) :
  arn_account arn = Some acc ->
  String.length acc = 12%nat
  /\ Forall (fun c => is_digit c = true) (list_ascii_of_string acc)
  /\ exists pre svc post,
       (svc = "iam" \/ svc = "sts")%string
       /\ arn = (pre ++ "arn:aws:" ++ svc ++ "::" ++ acc ++ ":" ++ post)%string.
Proof.
  unfold arn_account.
  destruct (arn_search (list_ascii_of_string arn)) as [a|] eqn:E;
    [|discriminate].
  intros H. injection H as <-.
  apply arn_search_sound in E as (pre & s' & Hs & Hm).
  apply arn_match_here_spec in Hm as (svc & post & Hsvc & -> & Hl & HF).
  rewrite <- length_list_ascii_of_string, list_ascii_of_string_of_list_ascii.
  split; [exact Hl|]. split; [exact HF|].
  exists (string_of_list_ascii pre), (string_of_list_ascii svc),
         (string_of_list_ascii post).
  split; [now apply svc_string|].
  rewrite <- (string_of_list_ascii_of_string arn), Hs.
  rewrite !string_of_list_ascii_app. reflexivity.
Qed.

(** X16: the account number read from an ARN is always the twelve digits
    that follow [arn:aws:iam::] or [arn:aws:sts::] and are followed by a
    colon somewhere in the ARN; nothing else is ever returned. *)
Theorem arn_account_sound (arn acc : string) :
  arn_account arn = Some acc ->
  String.length acc = 12%nat
  /\ Forall (fun c => is_digit c = true) (list_ascii_of_string acc)
  /\ exists pre svc post,
       (svc = "iam" \/ svc = "sts")%string
       /\ arn = (pre ++ "arn:aws:" ++ svc ++ "::" ++ acc ++ ":" ++ post)%string.
Proof. exact (arn_account_shape arn acc). Qed.

Lemma arn_account_sound_witness :
  String.length "123456789012" = 12%nat
  /\ exists pre svc post,
       (svc = "iam" \/ svc = "sts")%string
       /\ "user=arn:aws:sts::123456789012:assumed-role/dev"%string
          = (pre ++ "arn:aws:" ++ svc ++ "::" ++ "123456789012" ++ ":"
             ++ post)%string.
Proof.
  pose proof (arn_account_sound
                "user=arn:aws:sts::123456789012:assumed-role/dev"
                "123456789012" eq_refl) as (H1 & _ & H3).
  split; [exact H1 | exact H3].
Defined.

(** X17: an account number is found in every string that holds, anywhere,
    [arn:aws:iam::] or [arn:aws:sts::] followed by twelve digits and a
    colon; when the string starts with that text, the number found is those
    twelve digits. *)
Theorem arn_account_complete (pre svc acc post : string) :
  (svc = "iam" \/ svc = "sts")%string ->
  String.length acc = 12%nat ->
  Forall (fun c => is_digit c = true) (list_ascii_of_string acc) ->
  is_Some (arn_account
             (pre ++ "arn:aws:" ++ svc ++ "::" ++ acc ++ ":" ++ post)%string)
  /\ arn_account ("arn:aws:" ++ svc ++ "::" ++ acc ++ ":" ++ post)%string
     = Some acc.
Proof.
  intros Hsvc Hl HF.
  assert (Hm : arn_match_here
                 (list_ascii_of_string
                    ("arn:aws:" ++ svc ++ "::" ++ acc ++ ":" ++ post)%string)
               = Some (list_ascii_of_string acc)).
  { apply arn_match_here_spec.
    exists (list_ascii_of_string svc), (list_ascii_of_string post).
    split; [destruct Hsvc as [-> | ->]; auto|].
    split; [|split; [now rewrite length_list_ascii_of_string | exact HF]].
    rewrite !list_ascii_of_string_app. reflexivity. }
  split.
  - unfold arn_account. rewrite list_ascii_of_string_app.
    destruct (arn_search_complete (list_ascii_of_string pre) _
                (ex_intro _ _ Hm)) as [a ->].
    simpl. eauto.
  - unfold arn_account.
    destruct (list_ascii_of_string
                ("arn:aws:" ++ svc ++ "::" ++ acc ++ ":" ++ post)%string)
      as [|c l] eqn:E; [discriminate|].
    cbn [arn_search]. rewrite Hm. simpl.
    now rewrite string_of_list_ascii_of_string.
Qed.

Lemma arn_account_complete_witness :
  arn_account "arn:aws:iam::000011112222:user/bob" = Some "000011112222"%string.
Proof.
  apply (proj2 (arn_account_complete "" "iam" "000011112222" "user/bob"
                  (or_introl eq_refl) eq_refl
                  ltac:(repeat constructor))).
Defined.

(** X18: the admin bypass is granted only to the same account: whenever
    [_is_same_account_admin_request] holds, the raw path of the event ends
    with [/admin/analyze], [THIS_ACCOUNT_ID] is known and not empty, and it
    is the [accountId] of the IAM authorizer or the twelve-digit account of
    an IAM or STS ARN carried by the event. *)
Theorem admin_bypass_requires_same_account (this : option string)
    (event : Event) :
  _is_same_account_admin_request this event = true ->
  endswith (py_or (rawPath event) (py_or (path event) "")) "/admin/analyze"
  = true
  /\ exists acc,
       this = Some acc /\ acc <> ""%string
       /\ (iam_accountId event = Some acc
           \/ exists arn pre svc post,
                (iam_userArn event = Some arn
                 \/ identity_userArn event = Some arn)
                /\ (svc = "iam" \/ svc = "sts")%string
                /\ arn = (pre ++ "arn:aws:" ++ svc ++ "::" ++ acc ++ ":"
                          ++ post)%string).
Proof.
  unfold _is_same_account_admin_request.
  destruct (endswith _ "/admin/analyze"); [|discriminate]. simpl negb.
  cbv iota.
  destruct (truthy this) as [t|] eqn:Et; [|discriminate].
  apply truthy_nonempty in Et as [-> Ht].
  destruct (_caller_account_from_event event) as [acc|] eqn:Ec;
    [|discriminate].
  intros H. apply String.eqb_eq in H. subst t.
  split; [reflexivity|]. exists acc. split; [reflexivity|].
  split; [exact Ht|].
  unfold _caller_account_from_event in Ec.
  destruct (truthy (iam_accountId event)) as [a|] eqn:Ea.
  - apply truthy_nonempty in Ea as [Ea _]. injection Ec as ->. now left.
  - right.
    assert (Harn : forall field arn,
              truthy field = Some arn -> arn_account arn = Some acc ->
              exists pre svc post,
                (svc = "iam" \/ svc = "sts")%string
                /\ arn = (pre ++ "arn:aws:" ++ svc ++ "::" ++ acc ++ ":"
                          ++ post)%string).
    { intros field arn _ Hacc. now apply arn_account_shape in Hacc. }
    destruct (truthy (iam_userArn event)) as [arn1|] eqn:E1.
    + destruct (arn_account arn1) as [a1|] eqn:A1.
      * injection Ec as ->.
        destruct (Harn _ _ E1 A1) as (pre & svc & post & Hs & Hshape).
        apply truthy_nonempty in E1 as [E1 _].
        exists arn1, pre, svc, post. auto.
      * destruct (truthy (identity_userArn event)) as [arn2|] eqn:E2;
          [|discriminate].
        destruct (Harn _ _ E2 Ec) as (pre & svc & post & Hs & Hshape).
        apply truthy_nonempty in E2 as [E2 _].
        exists arn2, pre, svc, post. auto.
    + destruct (truthy (identity_userArn event)) as [arn2|] eqn:E2;
        [|discriminate].
      destruct (Harn _ _ E2 Ec) as (pre & svc & post & Hs & Hshape).
      apply truthy_nonempty in E2 as [E2 _].
      exists arn2, pre, svc, post. auto.
Qed.

Lemma admin_bypass_requires_same_account_witness :
  exists acc,
    Some "123456789012"%string = Some acc /\ acc <> ""%string.
Proof.
  destruct (admin_bypass_requires_same_account
              (Some "123456789012"%string)
              (mkEvent (Some "/prod/admin/analyze"%string) None None
                 (Some "POST"%string) None false None None None
                 (Some "arn:aws:iam::123456789012:user/ops"%string) None)
              eq_refl) as (_ & acc & H1 & H2 & _).
  exists acc. auto.
Defined.

(** ** Prefix of the object keys *)

Lemma string_app_empty_r (s : string) : (s ++ "")%string = s.
Proof.
  induction s as [|c s IH]; [reflexivity|].
  change (String c (s ++ "") = String c s). now rewrite IH.
Qed.

Lemma endswith_app_slash (s : string) : endswith (s ++ "/") "/" = true.
Proof.
  unfold endswith. rewrite list_ascii_of_string_app, rev_app_distr.
  reflexivity.
Qed.

Lemma endswith_slash_nonempty (s : string) :
  endswith s "/" = true -> s <> ""%string.
Proof. intros H ->. discriminate H. Qed.

(** X19: the sanitised prefix always ends with a slash: a prefix that ends
    with one is kept as it is, any other gets one appended, and a missing or
    empty prefix becomes ["/"]; sanitising twice changes nothing more. *)
Theorem sanitize_prefix_ends_with_slash (p : option string) :
  endswith (_sanitize_prefix p) "/" = true
  /\ (exists tail, (tail = "" \/ tail = "/")%string
                   /\ _sanitize_prefix p = (py_or p "" ++ tail)%string)
  /\ _sanitize_prefix (Some (_sanitize_prefix p)) = _sanitize_prefix p.
Proof.
  assert (H1 : endswith (_sanitize_prefix p) "/" = true).
  { unfold _sanitize_prefix. destruct (truthy p) as [s|]; [|reflexivity].
    destruct (endswith s "/") eqn:E; [exact E | apply endswith_app_slash]. }
  split; [exact H1|]. split.
  - unfold _sanitize_prefix, py_or. destruct (truthy p) as [s|].
    + destruct (endswith s "/").
      * exists ""%string. split; [now left|]. symmetry.
        apply string_app_empty_r.
      * exists "/"%string. split; [now right | reflexivity].
    + exists "/"%string. split; [now right | reflexivity].
  - set (r := _sanitize_prefix p) in *.
    unfold _sanitize_prefix at 1. simpl truthy.
    destruct (String.eqb_spec r "") as [E|_].
    + apply endswith_slash_nonempty in H1. contradiction.
    + now rewrite H1.
Qed.

(** ** Labels *)

Lemma omap_truthy_nonempty (l : list (option string)) :
  Forall (fun p => p <> ""%string) (omap (fun p => truthy p) l).
Proof.
  induction l as [|a l IH]; simpl; [constructor|].
  destruct (truthy a) as [s|] eqn:E; [|exact IH].
  apply truthy_nonempty in E as [_ E]. now constructor.
Qed.

(** [_detect_labels_by_s3] hands an exception of the service on
    unchanged; otherwise it returns one label per label of the response, in
    the same order and with the same names, a missing confidence counting
    as 0, and with the parents that have a non-empty name, so no parent name
    in the result is empty. *)
Lemma detect_labels_shape {W : Type} (ext : Externals W) (st : Settings)
    (bucket key : string) (w : W) :
  match detect_labels ext bucket key (MAX_LABELS st) (MIN_CONF st) w with
  | inl e => _detect_labels_by_s3 ext st bucket key w = inl e
  | inr labels =>
      exists out,
        _detect_labels_by_s3 ext st bucket key w = inr out
        /\ map Name out = map label_Name labels
        /\ map LabelConfidence out
           = map (fun l => default 0 (label_Confidence l)) labels
        /\ Forall2 (fun l o => Parents o
                               = omap (fun p => truthy p) (label_Parents l))
                   labels out
        /\ Forall (fun o => Forall (fun p => p <> ""%string) (Parents o)) out
  end.
Proof.
  unfold _detect_labels_by_s3.
  destruct (detect_labels ext bucket key (MAX_LABELS st) (MIN_CONF st) w)
    as [e|labels]; [reflexivity|].
  exists (labels_out labels). split; [reflexivity|].
  unfold labels_out. rewrite !map_map. cbn [Name LabelConfidence].
  split; [reflexivity|]. split; [reflexivity|]. split.
  - induction labels as [|l labels IH]; simpl; constructor; auto.
  - apply List.Forall_forall. intros o Ho.
    apply in_map_iff in Ho as (l & <- & _). apply omap_truthy_nonempty.
Qed.

(** ** Analysis of one upload *)

Section Handler.
Local Open Scope Z_scope.
Context {W : Type} (ext : Externals W).

Lemma resp_cors (status : Z) (body : list (string * JValue)) :
  cors_ok (_resp status body None).
Proof. repeat split. Qed.

Lemma error_response_cors (e : Raised) : cors_ok (error_response e).
Proof. destruct e; apply resp_cors. Qed.

Lemma error_response_status (e : Raised) :
  http_status (error_response e) = 502 \/ http_status (error_response e) = 500.
Proof. destruct e; [now left | now right]. Qed.

Lemma set_header_cors (r : HttpResponse) (k v : string) :
  k <> "Access-Control-Allow-Origin"%string ->
  k <> "Access-Control-Allow-Headers"%string ->
  k <> "Access-Control-Allow-Methods"%string ->
  cors_ok r -> cors_ok (set_header r k v).
Proof.
  intros N1 N2 N3 (H1 & H2 & H3). unfold cors_ok, set_header. simpl.
  rewrite !lookup_insert_ne by assumption. auto.
Qed.

Lemma quota_response_cors (r : Response) : cors_ok (quota_response r).
Proof.
  unfold cors_ok, quota_response, _resp. simpl.
  repeat split;
    (rewrite lookup_union_r;
     [reflexivity
     | rewrite lookup_insert_ne by discriminate;
       now rewrite lookup_singleton_ne by discriminate]).
Qed.

(** Case analysis on the tests of [_process_analyze]. *)
Ltac process_cases :=
  unfold _process_analyze, _detect_labels_by_s3;
  repeat match goal with
         | |- context [match ?x with _ => _ end] => destruct x eqn:?
         end.

Lemma process_analyze_cors (st : Settings) (data : Data) (w : W) :
  cors_ok (fst (_process_analyze ext st data w)).
Proof.
  process_cases; cbn [fst];
    first [apply resp_cors | apply error_response_cors].
Qed.

Lemma process_analyze_status_cases (st : Settings) (data : Data) (w : W) :
  In (http_status (fst (_process_analyze ext st data w)))
     [200; 400; 500; 502].
Proof.
  process_cases; cbn [fst];
    try (match goal with
         | |- context [error_response ?e] =>
             destruct (error_response_status e) as [-> | ->]
         end);
    simpl; tauto.
Qed.

Lemma error_response_not_ok (e : Raised) :
  http_status (error_response e) <> 200
  /\ http_status (error_response e) <> 400.
Proof. destruct e; split; discriminate. Qed.


Lemma py_or_nonempty (a : option string) (b : string) :
  b <> ""%string -> py_or a b <> ""%string.
Proof.
  intros Hb. unfold py_or. destruct (truthy a) as [s|] eqn:E; [|exact Hb].
  now apply truthy_nonempty in E.
Qed.

(** X21: status 200 is given only after the upload succeeded: then a bucket
    is configured, the payload decoded, and [put_object] stored it without
    raising under the key made of the sanitised prefix, the drawn name and a
    non-empty extension; the body names that object as [stored], and the
    world is the one the upload left. *)
Theorem process_analyze_ok_after_upload (st : Settings) (data : Data) (w : W) :
  let r := _process_analyze ext st data w in
  http_status (fst r) = 200 ->
  exists bucket b64 raw hex w1 ext_ content_type rest,
    truthy (BUCKET st) = Some bucket
    /\ truthy (content_base64 data) = Some b64
    /\ b64decode ext b64 = Some raw
    /\ uuid4_hex ext w = (hex, w1)
    /\ ext_ <> ""%string
    /\ put_object ext bucket (object_key st hex ext_) raw content_type w1
       = (None, snd r)
    /\ http_body (fst r)
       = Json (("stored"%string,
                JStr ("s3://" ++ bucket ++ "/" ++ object_key st hex ext_)%string)
               :: rest).
Proof.
  cbv zeta. unfold _process_analyze.
  destruct (truthy (BUCKET st)) as [bucket|] eqn:EB; [|discriminate].
  destruct (truthy (content_base64 data)) as [b64|] eqn:EC; [|discriminate].
  destruct (b64decode ext b64) as [raw|] eqn:ED; [|discriminate].
  destruct (uuid4_hex ext w) as [hex w1] eqn:EU.
  set (fname := py_or (Some (strip_string (py_or (filename data) "")))
                      "image.jpg").
  set (ext_ := py_or (Some (lower (splitext_ext ext fname))) ".jpg").
  match goal with
  | |- context [put_object ext bucket ?k raw ?ct w1] =>
      set (content_type := ct)
  end.
  destruct (put_object ext bucket (object_key st hex ext_) raw content_type w1)
    as [[e|] w2] eqn:EP.
  - cbn [fst]. intros H. now destruct (error_response_not_ok e).
  - assert (Hext : ext_ <> ""%string)
      by (apply py_or_nonempty; discriminate).
    destruct (String.eqb (lower (py_or (mode data) "labels")) "text").
    + destruct (detect_text ext bucket (object_key st hex ext_) w2) as [e|dets].
      * cbn [fst]. intros H. now destruct (error_response_not_ok e).
      * destruct (_detect_text_lines_by_s3 dets (min_conf_of st data))
          as [texts|]; [|discriminate].
        intros _. exists bucket, b64, raw, hex, w1, ext_, content_type.
        eexists. cbn [fst snd http_body _resp]. repeat split; eauto.
    + destruct (_detect_labels_by_s3 ext st bucket
                  (object_key st hex ext_) w2) as [e|labels].
      * cbn [fst]. intros H. now destruct (error_response_not_ok e).
      * intros _. exists bucket, b64, raw, hex, w1, ext_, content_type.
        eexists. cbn [fst snd http_body _resp]. repeat split; eauto.
Qed.

(** ** The handler *)

(** The handler in terms of the route of the request. *)
Lemma lambda_handler_route (cfg : Config) (st : Settings) (event : Event)
    (day : string) (ttl : Z) (tbl : Table) (w : W) :
  lambda_handler ext cfg st event day ttl tbl w
  = let method := request_method ext event in
    let path_ := request_path ext event in
    let data := request_data ext event in
    if String.eqb method "OPTIONS"
    then (mkHttp 204 CORS_HEADERS EmptyBody, tbl, w)
    else if String.eqb path_ "/health" && String.eqb method "GET"
    then (_resp 200 [("ok"%string, JBool true);
                     ("message"%string, JStr "API ↔ Lambda working");
                     ("bucket"%string, jopt (BUCKET st));
                     ("quota_enabled"%string,
                      JBool (FEATURE_QUOTA_ENABLED cfg))] None, tbl, w)
    else if String.eqb path_ "/admin/analyze" && String.eqb method "POST"
    then
      if _is_same_account_admin_request (THIS_ACCOUNT_ID st) event
      then (set_header (fst (_process_analyze ext st data w))
                       "x-quota-bypass" "same-account",
            tbl, snd (_process_analyze ext st data w))
      else
        match enforce_quota cfg (_client_id event) day ttl tbl with
        | (Returns _, tbl') =>
            (fst (_process_analyze ext st data w), tbl',
             snd (_process_analyze ext st data w))
        | (RuntimeError resp, tbl') => (quota_response resp, tbl', w)
        | (Reraised code, tbl') => (fatal_response code, tbl', w)
        | (KeyError, tbl') => (fatal_response "'cnt'", tbl', w)
        end
    else if String.eqb path_ "/analyze" && String.eqb method "POST"
    then
      match enforce_quota cfg (_client_id event) day ttl tbl with
      | (Returns new_cnt, tbl') =>
          (set_header
             (set_header (fst (_process_analyze ext st data w))
                         "x-ratelimit-limit" (limit_header cfg))
             "x-ratelimit-remaining" (remaining_header cfg new_cnt),
           tbl', snd (_process_analyze ext st data w))
      | (RuntimeError resp, tbl') => (quota_response resp, tbl', w)
      | (Reraised code, tbl') => (fatal_response code, tbl', w)
      | (KeyError, tbl') => (fatal_response "'cnt'", tbl', w)
      end
    else (_resp 404 [("ok"%string, JBool false);
                     ("message"%string, JStr "Not Found")] None, tbl, w).
Proof.
  unfold lambda_handler, request_method, request_path, request_data.
  destruct (_parse_event ext event) as [[[p m] d] b]. cbv zeta.
  destruct (_process_analyze ext st d w) as [res w']. cbn [fst snd].
  repeat match goal with
         | |- context [if ?c then _ else _] => destruct c
         end; try reflexivity;
    destruct (enforce_quota cfg (_client_id event) day ttl tbl) as [[] ?];
    reflexivity.
Qed.

(** X22: only [POST /analyze] and [POST /admin/analyze] can change the
    quota table or the outside world: an [OPTIONS] request is answered 204
    with the CORS headers whatever its path, and any other request that is
    not one of those two is answered 200 ([GET /health]) or 404, all of them
    leaving table and world as they were. *)
Theorem handler_effects_only_on_analysis (cfg : Config) (st : Settings)
    (event : Event) (day : string) (ttl : Z) (tbl : Table) (w : W) :
  let method := request_method ext event in
  let path_ := request_path ext event in
  (method = "OPTIONS"%string ->
   lambda_handler ext cfg st event day ttl tbl w
   = (mkHttp 204 CORS_HEADERS EmptyBody, tbl, w))
  /\ (method <> "POST"%string
      \/ (path_ <> "/analyze"%string /\ path_ <> "/admin/analyze"%string) ->
      exists resp,
        lambda_handler ext cfg st event day ttl tbl w = (resp, tbl, w)
        /\ In (http_status resp) [204; 200; 404]).
Proof.
  cbv zeta. rewrite lambda_handler_route. cbv zeta. split.
  - intros ->. reflexivity.
  - intros Hroute.
    destruct (String.eqb_spec (request_method ext event) "OPTIONS");
      [eexists; split; [reflexivity | simpl; tauto]|].
    destruct (String.eqb (request_path ext event) "/health"
              && String.eqb (request_method ext event) "GET");
      [eexists; split; [reflexivity | simpl; tauto]|].
    destruct (String.eqb_spec (request_path ext event) "/admin/analyze") as [Ea|Na];
      destruct (String.eqb_spec (request_method ext event) "POST") as [Em|Nm];
      destruct (String.eqb_spec (request_path ext event) "/analyze") as [Eb|Nb];
      cbn [andb];
      try (eexists; split; [reflexivity | simpl; tauto]);
      exfalso; destruct Hroute as [H | [H1 H2]]; contradiction.
Qed.


(** The branch of [POST /analyze]. *)
Lemma handler_analyze (cfg : Config) (st : Settings) (event : Event)
    (day : string) (ttl : Z) (tbl : Table) (w : W) :
  request_method ext event = "POST"%string ->
  request_path ext event = "/analyze"%string ->
  lambda_handler ext cfg st event day ttl tbl w
  = match enforce_quota cfg (_client_id event) day ttl tbl with
    | (Returns new_cnt, tbl') =>
        (set_header
           (set_header
              (fst (_process_analyze ext st (request_data ext event) w))
              "x-ratelimit-limit" (limit_header cfg))
           "x-ratelimit-remaining" (remaining_header cfg new_cnt),
         tbl', snd (_process_analyze ext st (request_data ext event) w))
    | (RuntimeError resp, tbl') => (quota_response resp, tbl', w)
    | (Reraised code, tbl') => (fatal_response code, tbl', w)
    | (KeyError, tbl') => (fatal_response "'cnt'", tbl', w)
    end.
Proof.
  intros Hm Hp. rewrite lambda_handler_route. cbv zeta.
  rewrite Hm, Hp. reflexivity.
Qed.

Lemma handler_refuse_step (cfg : Config) (st : Settings)
    (event : Event) (day : string) (ttl : Z) (tbl : Table) (w : W) :
  request_method ext event = "POST"%string ->
  request_path ext event = "/analyze"%string ->
  quota_active cfg = true ->
  has_count tbl (_client_id event) day = true \/ 0 < QUOTA_LIMIT cfg ->
  QUOTA_LIMIT cfg <= stored_count tbl (_client_id event) day ->
  exists resp,
    lambda_handler ext cfg st event day ttl tbl w = (resp, tbl, w)
    /\ http_status resp = 429
    /\ http_headers resp !! "x-ratelimit-remaining"%string = Some "0"%string
    /\ http_headers resp !! "x-ratelimit-limit"%string
       = Some (pretty (QUOTA_LIMIT cfg)).
Proof.
  intros Hm Hp Hact Hc Hge. rewrite (handler_analyze _ _ _ _ _ _ _ Hm Hp).
  rewrite (enforce_quota_active _ _ _ _ _ Hact).
  destruct (condition_holds (tbl !! quota_key (_client_id event) day)
                            (QUOTA_LIMIT cfg)) eqn:C.
  - apply condition_holds_lt in C; [lia | exact Hc].
  - eexists. split; [reflexivity|]. split; [reflexivity|].
    unfold quota_response, _resp. cbn [http_headers].
    split.
    + rewrite lookup_union_l'; [|rewrite lookup_insert_ne by discriminate;
                                 rewrite lookup_singleton_eq; eauto].
      rewrite lookup_insert_ne by discriminate.
      now rewrite lookup_singleton_eq.
    + rewrite lookup_union_l'; [|rewrite lookup_insert_eq; eauto].
      now rewrite lookup_insert_eq.
Qed.

(** X23: a caller whose stored count has reached the limit is turned away
    before anything else happens: on [POST /analyze], with enforcement
    active, the answer has status 429 with [x-ratelimit-remaining] 0 and
    [x-ratelimit-limit] the limit, and neither the quota table nor the
    outside world changes (nothing is decoded, named or uploaded). *)
Theorem handler_refuses_over_quota (cfg : Config) (st : Settings)
    (event : Event) (day : string) (ttl : Z) (tbl : Table) (w : W) :
  request_method ext event = "POST"%string ->
  request_path ext event = "/analyze"%string ->
  quota_active cfg = true ->
  has_count tbl (_client_id event) day = true \/ 0 < QUOTA_LIMIT cfg ->
  QUOTA_LIMIT cfg <= stored_count tbl (_client_id event) day ->
  exists resp,
    lambda_handler ext cfg st event day ttl tbl w = (resp, tbl, w)
    /\ http_status resp = 429
    /\ http_headers resp !! "x-ratelimit-remaining"%string = Some "0"%string
    /\ http_headers resp !! "x-ratelimit-limit"%string
       = Some (pretty (QUOTA_LIMIT cfg)).
Proof. exact (handler_refuse_step cfg st event day ttl tbl w). Qed.






(** ** The admin route *)

Lemma process_analyze_headers (st : Settings) (data : Data) (w : W) :
  http_headers (fst (_process_analyze ext st data w))
  = http_headers (_resp 0 [] None).
Proof.
  process_cases; cbn [fst];
    try (match goal with
         | |- context [error_response ?e] => destruct e
         end);
    reflexivity.
Qed.

Lemma endswith_slash_not_admin (p : string) :
  endswith p "/" = true -> endswith p "/admin/analyze" = false.
Proof.
  unfold endswith. cbn [list_ascii_of_string rev app].
  destruct (rev (list_ascii_of_string p)) as [|a l]; [discriminate|].
  cbn [starts_with]. destruct (Ascii.eqb_spec "/" a) as [<-|]; [|discriminate].
  reflexivity.
Qed.

(** The branch of [POST /admin/analyze]. *)
Lemma handler_admin (cfg : Config) (st : Settings) (event : Event)
    (day : string) (ttl : Z) (tbl : Table) (w : W) :
  request_method ext event = "POST"%string ->
  request_path ext event = "/admin/analyze"%string ->
  lambda_handler ext cfg st event day ttl tbl w
  = let r := _process_analyze ext st (request_data ext event) w in
    if _is_same_account_admin_request (THIS_ACCOUNT_ID st) event
    then (set_header (fst r) "x-quota-bypass" "same-account", tbl, snd r)
    else
      match enforce_quota cfg (_client_id event) day ttl tbl with
      | (Returns _, tbl') => (fst r, tbl', snd r)
      | (RuntimeError resp, tbl') => (quota_response resp, tbl', w)
      | (Reraised code, tbl') => (fatal_response code, tbl', w)
      | (KeyError, tbl') => (fatal_response "'cnt'", tbl', w)
      end.
Proof.
  intros Hm Hp. rewrite lambda_handler_route. cbv zeta.
  rewrite Hm, Hp. reflexivity.
Qed.


Lemma quota_response_no_bypass (r : Response) :
  http_headers (quota_response r) !! "x-quota-bypass"%string = None.
Proof.
  unfold quota_response, _resp. cbn [http_headers].
  apply lookup_union_None. split; [|reflexivity].
  rewrite lookup_insert_ne by discriminate.
  now rewrite lookup_singleton_ne by discriminate.
Qed.

(** X27: on [POST /admin/analyze] a request without the bypass is metered
    like any other: the table becomes the one [enforce_quota] leaves, no
    [x-quota-bypass] header is set, and a caller at the limit gets the 429
    with the world untouched.  The handler routes on the path without its
    trailing slashes while the bypass tests the raw path, so a raw path that
    ends with a slash reaches this route but never gets the bypass, whoever
    the caller is. *)
Theorem handler_admin_without_bypass (cfg : Config) (st : Settings)
    (event : Event) (day : string) (ttl : Z) (tbl : Table) (w : W) :
  request_method ext event = "POST"%string ->
  request_path ext event = "/admin/analyze"%string ->
  (forall p, rawPath event = Some p -> endswith p "/" = true ->
             _is_same_account_admin_request (THIS_ACCOUNT_ID st) event = false)
  /\ (_is_same_account_admin_request (THIS_ACCOUNT_ID st) event = false ->
      let out := lambda_handler ext cfg st event day ttl tbl w in
      snd (fst out) = snd (enforce_quota cfg (_client_id event) day ttl tbl)
      /\ http_headers (fst (fst out)) !! "x-quota-bypass"%string = None
      /\ (quota_active cfg = true ->
          has_count tbl (_client_id event) day = true \/ 0 < QUOTA_LIMIT cfg ->
          QUOTA_LIMIT cfg <= stored_count tbl (_client_id event) day ->
          http_status (fst (fst out)) = 429 /\ snd out = w)).
Proof.
  intros Hm Hp. split.
  - intros p Hraw Hslash. unfold _is_same_account_admin_request.
    rewrite Hraw. unfold py_or at 1, truthy.
    destruct (String.eqb_spec p "") as [->|_]; [discriminate Hslash|].
    now rewrite (endswith_slash_not_admin p Hslash).
  - intros Hb. cbv zeta. rewrite (handler_admin _ _ _ _ _ _ _ Hm Hp).
    cbv zeta. rewrite Hb. split; [|split].
    + destruct (enforce_quota cfg (_client_id event) day ttl tbl) as [[] ?];
        reflexivity.
    + destruct (enforce_quota cfg (_client_id event) day ttl tbl)
        as [[n | resp | code |] tbl']; cbn [fst].
      * rewrite process_analyze_headers. reflexivity.
      * apply quota_response_no_bypass.
      * reflexivity.
      * reflexivity.
    + intros Hact Hc Hge. rewrite (enforce_quota_active _ _ _ _ _ Hact).
      destruct (condition_holds (tbl !! quota_key (_client_id event) day)
                                (QUOTA_LIMIT cfg)) eqn:C.
      * apply condition_holds_lt in C; [lia | exact Hc].
      * split; reflexivity.
Qed.

(** ** Every answer *)

Lemma enforce_quota_raises_429 (cfg : Config) (u d : string) (ttl : Z)
    (tbl : Table) (resp : Response) :
  fst (enforce_quota cfg u d ttl tbl) = RuntimeError resp ->
  statusCode resp = 429.
Proof.
  destruct (quota_active cfg) eqn:A.
  - rewrite (enforce_quota_active _ _ _ _ _ A).
    destruct (condition_holds _ _); cbn [fst]; [discriminate|].
    unfold exceeded. intros H. injection H as <-. reflexivity.
  - rewrite (enforce_quota_inactive _ _ _ _ _ A). discriminate.
Qed.

(** X28: every answer of the handler, on every event and in every state,
    carries the three CORS headers, and its status is one of 200, 204, 400,
    404, 429, 500 and 502. *)
Theorem handler_response_envelope (cfg : Config) (st : Settings)
    (event : Event) (day : string) (ttl : Z) (tbl : Table) (w : W) :
  let resp := fst (fst (lambda_handler ext cfg st event day ttl tbl w)) in
  cors_ok resp
  /\ In (http_status resp) [200; 204; 400; 404; 429; 500; 502].
Proof.
  cbv zeta. rewrite lambda_handler_route. cbv zeta.
  set (m := request_method ext event). set (p := request_path ext event).
  set (r := _process_analyze ext st (request_data ext event) w).
  assert (Hcors : cors_ok (fst r)) by apply process_analyze_cors.
  assert (Hin : In (http_status (fst r)) [200; 204; 400; 404; 429; 500; 502]).
  { pose proof (process_analyze_status_cases st (request_data ext event) w)
      as Hst. fold r in Hst. cbn [In] in *. tauto. }
  assert (Hfatal : forall code,
            cors_ok (fatal_response code)
            /\ In (http_status (fatal_response code))
                  [200; 204; 400; 404; 429; 500; 502]).
  { intros code. split; [apply resp_cors|].
    change (http_status (fatal_response code)) with 500. cbn [In]. tauto. }
  assert (Hquota : forall resp tbl',
            enforce_quota cfg (_client_id event) day ttl tbl
            = (RuntimeError resp, tbl') ->
            cors_ok (quota_response resp)
            /\ In (http_status (quota_response resp))
                  [200; 204; 400; 404; 429; 500; 502]).
  { intros resp tbl' E. split; [apply quota_response_cors|].
    change (http_status (quota_response resp)) with (statusCode resp).
    rewrite (enforce_quota_raises_429 cfg (_client_id event) day ttl tbl resp)
      by (now rewrite E).
    cbn [In]. tauto. }
  destruct (String.eqb m "OPTIONS").
  { cbn [fst]. split; [repeat split | cbn [In http_status]; tauto]. }
  destruct (String.eqb p "/health" && String.eqb m "GET").
  { cbn [fst]. split; [apply resp_cors|].
    change (http_status (_resp 200 ?b None)) with 200. cbn [In]. tauto. }
  destruct (String.eqb p "/admin/analyze" && String.eqb m "POST").
  { destruct (_is_same_account_admin_request (THIS_ACCOUNT_ID st) event).
    - cbn [fst]. split; [|exact Hin].
      apply set_header_cors; [discriminate..|exact Hcors].
    - destruct (enforce_quota cfg (_client_id event) day ttl tbl)
        as [[n | resp | code |] tbl'] eqn:E; cbn [fst].
      + split; assumption.
      + exact (Hquota resp tbl' eq_refl).
      + apply Hfatal.
      + apply Hfatal. }
  destruct (String.eqb p "/analyze" && String.eqb m "POST").
  { destruct (enforce_quota cfg (_client_id event) day ttl tbl)
      as [[n | resp | code |] tbl'] eqn:E; cbn [fst].
    - split; [|exact Hin].
      apply set_header_cors; [discriminate..|].
      apply set_header_cors; [discriminate..|exact Hcors].
    - exact (Hquota resp tbl' eq_refl).
    - apply Hfatal.
    - apply Hfatal. }
  cbn [fst]. split; [apply resp_cors|].
  change (http_status (_resp 404 ?b None)) with 404. cbn [In]. tauto.
Qed.

(** ** The route *)

Lemma lstrip_char_spec (c : ascii) (l : list ascii) :
  exists k,
    l = repeat c k ++ lstrip_char c l
    /\ match lstrip_char c l with
       | [] => True
       | a :: _ => a <> c
       end.
Proof.
  induction l as [|a l (k & E & H)]; [exists 0%nat; now split|].
  cbn [lstrip_char]. destruct (Ascii.eqb_spec a c) as [->|N].
  - exists (S k). split; [simpl; now f_equal | exact H].
  - exists 0%nat. split; [reflexivity | exact N].
Qed.

Lemma rev_repeat (c : ascii) (k : nat) : rev (repeat c k) = repeat c k.
Proof.
  induction k as [|k IH]; [reflexivity|].
  cbn [repeat rev]. rewrite IH. clear IH.
  induction k as [|k IH]; [reflexivity|]. simpl. now rewrite IH.
Qed.

Lemma rstrip_slash_spec (s : string) :
  endswith (rstrip_slash s) "/" = false
  /\ exists k,
       s = (rstrip_slash s ++ string_of_list_ascii (repeat "/"%char k))%string.
Proof.
  unfold rstrip_slash, endswith.
  destruct (lstrip_char_spec "/" (rev (list_ascii_of_string s)))
    as (k & E & H).
  split.
  - rewrite list_ascii_of_string_of_list_ascii, rev_involutive.
    cbn [list_ascii_of_string rev app starts_with].
    destruct (lstrip_char "/" (rev (list_ascii_of_string s))) as [|a l];
      [reflexivity|].
    destruct (Ascii.eqb_spec "/" a) as [<-|]; [now contradiction H|reflexivity].
  - exists k. rewrite <- string_of_list_ascii_app.
    rewrite <- (rev_repeat "/" k), <- rev_app_distr, <- E, rev_involutive.
    now rewrite string_of_list_ascii_of_string.
Qed.

Lemma upper_upper (c : ascii) : upper_char (upper_char c) = upper_char c.
Proof. destruct c as [[] [] [] [] [] [] [] []]; reflexivity. Qed.

Lemma upper_idempotent (s : string) : upper (upper s) = upper s.
Proof.
  unfold upper. rewrite list_ascii_of_string_of_list_ascii, map_map.
  f_equal. apply map_ext. intros c. apply upper_upper.
Qed.

(** X29: the path the handler routes on is the raw path ([rawPath], else
    [path], else ["/"]) without its trailing slashes, and ["/"] when nothing
    else is left: it is never empty, ends with a slash only when it is
    ["/"], and the raw path is that path followed by slashes only; the
    method is in upper case, so routing ignores trailing slashes and the
    case of the method. *)
Theorem request_route_normalised (event : Event) :
  let raw := py_or (rawPath event) (py_or (path event) "/") in
  let p := request_path ext event in
  p <> ""%string
  /\ (p = "/"%string \/ endswith p "/" = false)
  /\ (exists k,
        let slashes := string_of_list_ascii (repeat "/"%char k) in
        raw = (p ++ slashes)%string \/ (p = "/"%string /\ raw = slashes))
  /\ upper (request_method ext event) = request_method ext event.
Proof.
  cbv zeta. unfold request_path, request_method, _parse_event. cbv zeta.
  set (raw := py_or (rawPath event) (py_or (path event) "/")).
  assert (Hraw : raw <> ""%string).
  { apply py_or_nonempty, py_or_nonempty. discriminate. }
  rewrite !(py_or_truthy (Some raw) "/" raw eq_refl Hraw).
  destruct (rstrip_slash_spec raw) as (Hend & k & E).
  assert (Hp : py_or (Some (rstrip_slash raw)) "/"
               = if String.eqb (rstrip_slash raw) "" then "/"%string
                 else rstrip_slash raw).
  { unfold py_or, truthy. now destruct (String.eqb (rstrip_slash raw) ""). }
  rewrite Hp. clear Hp.
  destruct (String.eqb_spec (rstrip_slash raw) "") as [E0|N0].
  - split; [discriminate|]. split; [now left|].
    split; [|apply upper_idempotent].
    exists k. right. split; [reflexivity|].
    rewrite E0 in E. exact E.
  - split; [exact N0|]. split; [now right|].
    split; [|apply upper_idempotent].
    exists k. left. exact E.
Qed.

(** ** The threshold of the request *)


End Handler.

(** ** Examples *)

Lemma process_analyze_ok_after_upload_witness :
  let data := mkData (Some "aGk="%string) (Some "photo.PNG"%string) None None in
  let r := _process_analyze demo_ext demo_settings data [] in
  http_status (fst r) = 200%Z
  /\ exists bucket b64 raw hex w1 ext_ content_type rest,
       truthy (BUCKET demo_settings) = Some bucket
       /\ truthy (content_base64 data) = Some b64
       /\ b64decode demo_ext b64 = Some raw
       /\ uuid4_hex demo_ext [] = (hex, w1)
       /\ ext_ <> ""%string
       /\ put_object demo_ext bucket (object_key demo_settings hex ext_) raw
                     content_type w1
          = (None, snd r)
       /\ http_body (fst r)
          = Json (("stored"%string,
                   JStr ("s3://" ++ bucket ++ "/"
                         ++ object_key demo_settings hex ext_)%string)
                  :: rest).
Proof.
  cbv zeta. split; [reflexivity|].
  exact (process_analyze_ok_after_upload demo_ext demo_settings
           (mkData (Some "aGk="%string) (Some "photo.PNG"%string) None None)
           [] eq_refl).
Defined.

Lemma handler_refuses_over_quota_witness :
  let cfg := mkConfig true (Some "quota"%string) 2 in
  let event := demo_post "/analyze" "alice" "aGk=" in
  let tbl : Table :=
    {[ quota_key "alice" "2026-01-01" := mkItem (Some 2%Z) (Some 1767312000%Z) ]} in
  exists resp,
    lambda_handler demo_ext cfg demo_settings event "2026-01-01" 1767312000
                   tbl []
    = (resp, tbl, [])
    /\ http_status resp = 429%Z
    /\ http_headers resp !! "x-ratelimit-remaining"%string = Some "0"%string
    /\ http_headers resp !! "x-ratelimit-limit"%string = Some "2"%string.
Proof.
  cbv zeta.
  apply (handler_refuses_over_quota demo_ext
           (mkConfig true (Some "quota"%string) 2) demo_settings
           (demo_post "/analyze" "alice" "aGk=") "2026-01-01" 1767312000
           {[ quota_key "alice" "2026-01-01"
              := mkItem (Some 2%Z) (Some 1767312000%Z) ]} []).
  - reflexivity.
  - reflexivity.
  - reflexivity.
  - left. reflexivity.
  - vm_compute. discriminate.
Defined.




Lemma handler_admin_without_bypass_witness :
  let cfg := mkConfig true (Some "quota"%string) 2 in
  let event :=
    mkEvent (Some "/admin/analyze/"%string) None (Some "POST"%string) None
            (Some "aGk="%string) false
            (Some [("x-client-id"%string, "alice"%string)])
            (Some "10.0.0.1"%string) (Some "123456789012"%string) None None in
  let tbl : Table :=
    {[ quota_key "alice" "2026-01-01"
       := mkItem (Some 2%Z) (Some 1767312000%Z) ]} in
  let out := lambda_handler demo_ext cfg demo_settings event "2026-01-01"
                            1767312000 tbl [] in
  _caller_account_from_event event = THIS_ACCOUNT_ID demo_settings
  /\ _is_same_account_admin_request (THIS_ACCOUNT_ID demo_settings) event
     = false
  /\ http_status (fst (fst out)) = 429%Z
  /\ snd out = [].
Proof.
  cbv zeta. split; [reflexivity|].
  destruct (handler_admin_without_bypass demo_ext
              (mkConfig true (Some "quota"%string) 2) demo_settings
              (mkEvent (Some "/admin/analyze/"%string) None
                       (Some "POST"%string) None (Some "aGk="%string) false
                       (Some [("x-client-id"%string, "alice"%string)])
                       (Some "10.0.0.1"%string)
                       (Some "123456789012"%string) None None)
              "2026-01-01" 1767312000
              {[ quota_key "alice" "2026-01-01"
                 := mkItem (Some 2%Z) (Some 1767312000%Z) ]} []
              eq_refl eq_refl)
    as [Hslash Hmetered].
  pose proof (Hslash _ eq_refl eq_refl) as Hb.
  split; [exact Hb|].
  destruct (Hmetered Hb) as (_ & _ & Hlimit).
  apply Hlimit.
  - reflexivity.
  - left. reflexivity.
  - vm_compute. discriminate.
Defined.
